(** * A chat client over a generative-language API: state model and properties

    The development follows the TypeScript sources:
    - [Gemini]    : [sendToGeminiWithContext] (the external completion call);
    - [App]       : the application state of [App] and its event handlers;
    - [ChatInput] : the text-input widget and its [handleSubmit].

    JavaScript strings are modelled as [string] (UTF-8 bytes), arrays as
    [list], [T | null] and [T | undefined] as [option T].  React state is a
    record; a handler is a function of the rendered snapshot it closes over
    and produces the ordered list of state updates it enqueues. *)

From stdpp Require Import base list strings.
From Stdlib Require Import NArith Ascii DecimalString.

Open Scope string_scope.
Open Scope list_scope.
Open Scope nat_scope.

(** ** JavaScript helpers *)

Module JS.

(** Truthiness of a string: every string but the empty one. *)
Definition truthy (s : string) : bool := bool_decide (s ≠ "").

(** Truthiness of a value of type [string | null]. *)
Definition truthy_opt (o : option string) : bool :=
  match o with
  | Some s => truthy s
  | None => false
  end.

(** [Array.prototype.find]: the first element satisfying [P]. *)
Definition find {A} (P : A → Prop) `{∀ x, Decision (P x)}
    (l : list A) : option A :=
  snd <$> list_find P l.

(** [Array.prototype.findIndex]; [None] stands for the result [-1]. *)
Definition findIndex {A} (P : A → Prop) `{∀ x, Decision (P x)}
    (l : list A) : option nat :=
  fst <$> list_find P l.

(** *** [String.prototype.trim]

    The characters that [trim] removes are the ECMAScript WhiteSpace and
    LineTerminator code points, listed here by their UTF-8 encodings:
    U+0009..U+000D, U+0020, U+00A0, U+1680, U+2000..U+200A, U+2028,
    U+2029, U+202F, U+205F, U+3000 and U+FEFF. *)
Definition whiteSpace : list (list N) :=
  [ [9]; [10]; [11]; [12]; [13]; [32];
    [194; 160];
    [225; 154; 128];
    [226; 128; 128]; [226; 128; 129]; [226; 128; 130]; [226; 128; 131];
    [226; 128; 132]; [226; 128; 133]; [226; 128; 134]; [226; 128; 135];
    [226; 128; 136]; [226; 128; 137]; [226; 128; 138];
    [226; 128; 168]; [226; 128; 169]; [226; 128; 175];
    [226; 129; 159];
    [227; 128; 128];
    [239; 187; 191] ]%N.

Definition isWhiteSpace (t : list ascii) : bool :=
  bool_decide (N_of_ascii <$> t ∈ whiteSpace).

(** Remove leading characters recognised by [ws]; an encoded character
    takes one, two or three bytes. *)
Fixpoint strip (ws : list ascii → bool) (s : list ascii) : list ascii :=
  match s with
  | [] => []
  | a :: s1 =>
    if ws [a] then strip ws s1
    else match s1 with
      | [] => s
      | b :: s2 =>
        if ws [a; b] then strip ws s2
        else match s2 with
          | [] => s
          | c :: s3 => if ws [a; b; c] then strip ws s3 else s
          end
      end
  end.

Definition trimStart (s : list ascii) : list ascii := strip isWhiteSpace s.

(** Trailing characters are the leading ones of the reversed string,
    read backwards. *)
Definition trimEnd (s : list ascii) : list ascii :=
  rev (strip (λ t, isWhiteSpace (rev t)) (rev s)).

Definition trim (s : string) : string :=
  Strings.String.string_of_list_ascii
    (trimEnd (trimStart (Strings.String.list_ascii_of_string s))).

(** A string made of white space and line terminators only. *)
Inductive Blank (ws : list ascii → bool) : list ascii → Prop :=
| Blank_nil : Blank ws []
| Blank_cons t s : ws t = true → Blank ws s → Blank ws (t ++ s).

Definition whiteSpaceOnly (s : string) : Prop :=
  Blank isWhiteSpace (Strings.String.list_ascii_of_string s).

(** Template-literal rendering of a non-negative integer. *)
Definition show_nat (n : nat) : string :=
  NilEmpty.string_of_uint (Nat.to_uint n).

End JS.

(** ** Data model *)

Inductive Role := user | model.

Global Instance Role_eq_dec : EqDecision Role.
Proof. solve_decision. Defined.

Record Message := { role : Role; text : string }.

Global Instance Message_eq_dec : EqDecision Message.
Proof. solve_decision. Defined.

Definition userMessage (t : string) : Message := {| role := user; text := t |}.
Definition modelMessage (t : string) : Message := {| role := model; text := t |}.

Module Conversation.
Record t := {
  id : string;
  name : string;
  messages : list Message;
  systemInstruction : string;
}.
End Conversation.

(** [Partial<Conversation>]: an object carrying any subset of the fields. *)
Module Partial.
Record t := {
  id : option string;
  name : option string;
  messages : option (list Message);
  systemInstruction : option string;
}.

Definition of_name (n : string) : t :=
  {| id := None; name := Some n; messages := None;
     systemInstruction := None |}.

Definition of_messages (ms : list Message) : t :=
  {| id := None; name := None; messages := Some ms;
     systemInstruction := None |}.

Definition of_systemInstruction (text : string) : t :=
  {| id := None; name := None; messages := None;
     systemInstruction := Some text |}.

(** The object spread [{ ...c, ...update }]. *)
Definition spread (c : Conversation.t) (update : t) : Conversation.t :=
  {| Conversation.id := default (Conversation.id c) (id update);
     Conversation.name := default (Conversation.name c) (name update);
     Conversation.messages :=
       default (Conversation.messages c) (messages update);
     Conversation.systemInstruction :=
       default (Conversation.systemInstruction c)
               (systemInstruction update) |}.
End Partial.

Module SystemInstructionPreset.
Record t := { name : string; instruction : string }.

(** The names of a preset list, in order. *)
Definition names (ps : list t) : list string := name <$> ps.
End SystemInstructionPreset.

(** ** The external completion call *)

Module Gemini.

(** One entry of the [contents] array sent to the API. *)
Record Content := { content_role : Role; parts : list string }.

(** What the body of the [try] block does: the SDK call either resolves
    with a response whose [text] may be undefined, or something is thrown;
    a thrown value is an [Error] with a message, or anything else. *)
Inductive Outcome :=
| resolves (response_text : option string)
| throws_Error (message : string)
| throws_other.

(** The environment of the call: the stored credential and the remote
    service, as a function of the model name, the contents and the system
    instruction. *)
Record Env := {
  gemini_api_key : option string;
  generateContent : string → string → list Content → string → Outcome;
}.

Definition missing_key : string := "⚠️ APIキーが未設定です。".
Definition empty_response : string := "⚠️ レスポンスが空でした。".
Definition error_prefix : string := "⚠️ エラー: ".
Definition unknown_error : string := "⚠️ 不明なエラーが発生しました。".

Definition sendToGeminiWithContext (env : Env) (messages : list Message)
    (systemInstructionText : string) (modelName : string) : string :=
  match gemini_api_key env with
  | None => missing_key
  | Some apiKey =>
    if negb (JS.truthy apiKey) then missing_key
    else
      let contents :=
        (λ msg, {| content_role := role msg; parts := [text msg] |})
          <$> messages in
      match generateContent env apiKey modelName contents
              systemInstructionText with
      | resolves (Some t) => t
      | resolves None => empty_response
      | throws_Error message => error_prefix +:+ message
      | throws_other => unknown_error
      end
  end.

End Gemini.

(** ** The application state and its handlers *)

Module App.

(** The [useState] cells of [App]. *)
Record AppState := {
  conversations : list Conversation.t;
  currentConversationId : option string;
  isLoading : bool;
  editIndex : option nat;
  editText : string;
  editRole : option Role;
  systemInstructionPresets : list SystemInstructionPreset.t;
  selectedModel : string;
}.

(** A call to one of the state setters.  [setConversations] and
    [setSystemInstructionPresets] are called with an updater function,
    which React applies to the pending value, not to the rendered one. *)
Inductive Update :=
| setConversations (f : list Conversation.t → list Conversation.t)
| setCurrentConversationId (v : string)
| setIsLoading (v : bool)
| setEditIndex (v : option nat)
| setEditText (v : string)
| setEditRole (v : option Role)
| setSystemInstructionPresets
    (f : list SystemInstructionPreset.t → list SystemInstructionPreset.t)
| setSelectedModel (v : string).

Definition apply (s : AppState) (u : Update) : AppState :=
  match u with
  | setConversations f =>
    {| conversations := f (conversations s);
       currentConversationId := currentConversationId s;
       isLoading := isLoading s; editIndex := editIndex s;
       editText := editText s; editRole := editRole s;
       systemInstructionPresets := systemInstructionPresets s;
       selectedModel := selectedModel s |}
  | setCurrentConversationId v =>
    {| conversations := conversations s;
       currentConversationId := Some v;
       isLoading := isLoading s; editIndex := editIndex s;
       editText := editText s; editRole := editRole s;
       systemInstructionPresets := systemInstructionPresets s;
       selectedModel := selectedModel s |}
  | setIsLoading v =>
    {| conversations := conversations s;
       currentConversationId := currentConversationId s;
       isLoading := v; editIndex := editIndex s;
       editText := editText s; editRole := editRole s;
       systemInstructionPresets := systemInstructionPresets s;
       selectedModel := selectedModel s |}
  | setEditIndex v =>
    {| conversations := conversations s;
       currentConversationId := currentConversationId s;
       isLoading := isLoading s; editIndex := v;
       editText := editText s; editRole := editRole s;
       systemInstructionPresets := systemInstructionPresets s;
       selectedModel := selectedModel s |}
  | setEditText v =>
    {| conversations := conversations s;
       currentConversationId := currentConversationId s;
       isLoading := isLoading s; editIndex := editIndex s;
       editText := v; editRole := editRole s;
       systemInstructionPresets := systemInstructionPresets s;
       selectedModel := selectedModel s |}
  | setEditRole v =>
    {| conversations := conversations s;
       currentConversationId := currentConversationId s;
       isLoading := isLoading s; editIndex := editIndex s;
       editText := editText s; editRole := v;
       systemInstructionPresets := systemInstructionPresets s;
       selectedModel := selectedModel s |}
  | setSystemInstructionPresets f =>
    {| conversations := conversations s;
       currentConversationId := currentConversationId s;
       isLoading := isLoading s; editIndex := editIndex s;
       editText := editText s; editRole := editRole s;
       systemInstructionPresets := f (systemInstructionPresets s);
       selectedModel := selectedModel s |}
  | setSelectedModel v =>
    {| conversations := conversations s;
       currentConversationId := currentConversationId s;
       isLoading := isLoading s; editIndex := editIndex s;
       editText := editText s; editRole := editRole s;
       systemInstructionPresets := systemInstructionPresets s;
       selectedModel := v |}
  end.

(** The state after React has processed a queue of updates, in order. *)
Definition commit (us : list Update) (s : AppState) : AppState :=
  foldl apply s us.

(** *** State accessors (computed on every render) *)

Definition currentConversation (r : AppState) : option Conversation.t :=
  match currentConversationId r with
  | Some cid => JS.find (λ c, Conversation.id c = cid) (conversations r)
  | None => None
  end.

Definition messages (r : AppState) : list Message :=
  default [] (Conversation.messages <$> currentConversation r).

Definition systemInstruction (r : AppState) : string :=
  default "" (Conversation.systemInstruction <$> currentConversation r).

(** *** Handlers *)

Definition updateConversation (id : string) (update : Partial.t) : Update :=
  setConversations
    (fmap (λ c, if decide (Conversation.id c = id)
                then Partial.spread c update else c)).

(** An [async] handler runs to its first [await], enqueueing updates on
    the way; when the awaited promise settles, its continuation enqueues
    the remaining ones. *)
Record Request := {
  req_messages : list Message;
  req_systemInstruction : string;
  req_model : string;
}.

Inductive Settled := fulfilled (reply : string) | rejected.

Inductive Async :=
| Return (us : list Update)
| Await (us : list Update) (req : Request) (k : Settled → list Update).

(** Updates enqueued by the caller after the [async] call has returned
    its promise. *)
Definition and_then (a : Async) (more : list Update) : Async :=
  match a with
  | Return us => Return (us ++ more)
  | Await us req k => Await (us ++ more) req k
  end.

Definition handleSend (r : AppState) (userText : string)
    (baseMessages : option (list Message)) : Async :=
  match currentConversationId r with
  | None => Return []
  | Some cid =>
    if negb (JS.truthy cid) then Return []
    else
      let history := default (messages r) baseMessages in
      let newMessages := history ++ [{| role := user; text := userText |}] in
      Await
        [updateConversation cid (Partial.of_messages newMessages);
         setIsLoading true]
        {| req_messages := newMessages;
           req_systemInstruction := systemInstruction r;
           req_model := selectedModel r |}
        (λ settled,
           match settled with
           | fulfilled reply =>
             [updateConversation cid
                (Partial.of_messages
                   (newMessages ++ [{| role := model; text := reply |}]));
              setIsLoading false]
           | rejected => [setIsLoading false]
           end)
  end.

Definition handleResend (r : AppState) (index : nat) : Async :=
  match messages r !! index with
  | None => Return []
  | Some targetMsg =>
    if decide (role targetMsg ≠ user) then Return []
    else
      let trimmedHistory := take index (messages r) in
      handleSend r (text targetMsg) (Some trimmedHistory)
  end.

(** [newId] is the value returned by the call [uuidv4()]. *)
Definition handleNewChat (r : AppState) (newId : string) : list Update :=
  let newConversation :=
    {| Conversation.id := newId;
       Conversation.name :=
         "Conversation " +:+ JS.show_nat (length (conversations r) + 1);
       Conversation.messages := [];
       Conversation.systemInstruction := "" |} in
  [setConversations (λ prev, prev ++ [newConversation]);
   setCurrentConversationId newId].

Definition handleSwitchConversation (r : AppState) (id : string)
    : list Update :=
  [setCurrentConversationId id].

(** [newId] is what [uuidv4()] returns if [handleNewChat] gets called. *)
Definition handleDeleteConversation (r : AppState) (newId : string)
    (id : string) : list Update :=
  setConversations (filter (λ c, Conversation.id c ≠ id)) ::
  if decide (currentConversationId r = Some id) then
    let remainingConversations :=
      filter (λ c, Conversation.id c ≠ id) (conversations r) in
    match remainingConversations with
    | c :: _ => [setCurrentConversationId (Conversation.id c)]
    | [] => handleNewChat r newId
    end
  else [].

Definition handleRenameConversation (r : AppState) (id newName : string)
    : list Update :=
  [updateConversation id (Partial.of_name newName)].

Definition handleClearChat (r : AppState) : list Update :=
  match currentConversationId r with
  | Some cid =>
    if JS.truthy cid
    then [updateConversation cid (Partial.of_messages [])] else []
  | None => []
  end.

Definition handleSystemInstructionChange (r : AppState) (text : string)
    : list Update :=
  match currentConversationId r with
  | Some cid =>
    if JS.truthy cid
    then [updateConversation cid (Partial.of_systemInstruction text)]
    else []
  | None => []
  end.

Definition handleAddSystemInstructionPreset (r : AppState) (name : string)
    : list Update :=
  match currentConversation r with
  | None => []
  | Some c =>
    let newPreset :=
      {| SystemInstructionPreset.name := name;
         SystemInstructionPreset.instruction :=
           Conversation.systemInstruction c |} in
    [setSystemInstructionPresets (λ prev,
       match JS.findIndex
               (λ p, SystemInstructionPreset.name p = name) prev with
       | Some existingIndex => <[existingIndex := newPreset]> prev
       | None => prev ++ [newPreset]
       end)]
  end.

Definition handleDeleteSystemInstructionPreset (r : AppState)
    (name : string) : list Update :=
  let presetToDelete :=
    JS.find (λ p, SystemInstructionPreset.name p = name)
            (systemInstructionPresets r) in
  setSystemInstructionPresets
    (filter (λ p, SystemInstructionPreset.name p ≠ name)) ::
  match presetToDelete with
  | Some p =>
    if decide (Conversation.systemInstruction <$> currentConversation r
               = Some (SystemInstructionPreset.instruction p))
    then handleSystemInstructionChange r ""
    else []
  | None => []
  end.

(** The assignment [updatedMessages[editIndex] = { ...updatedMessages[editIndex], text }]
    on a copy of the message array.  Inside the array it replaces the text
    of one message.  At or past the end JavaScript grows the array with
    holes and stores an object that has no [role]: the result is not a
    [Message[]] any more, which is reported as [None]. *)
Definition assign_text (ms : list Message) (i : nat) (newText : string)
    : option (list Message) :=
  match ms !! i with
  | Some m => Some (<[i := {| role := role m; text := newText |}]> ms)
  | None => None
  end.

Definition reset_edit : list Update :=
  [setEditIndex None; setEditText ""; setEditRole None].

(** The [onSend] callback that [App] hands to [ChatInput]. *)
Definition onSend (r : AppState) (text : string) : option Async :=
  match editIndex r, editRole r with
  | Some i, Some user =>
    let trimmedHistory := take i (messages r) in
    Some (and_then (handleSend r text (Some trimmedHistory)) reset_edit)
  | Some i, Some model =>
    match currentConversationId r with
    | Some cid =>
      if JS.truthy cid then
        updatedMessages ← assign_text (messages r) i text;
        Some (Return
                (updateConversation cid (Partial.of_messages updatedMessages)
                 :: reset_edit))
      else Some (Return reset_edit)
    | None => Some (Return reset_edit)
    end
  | _, _ => Some (and_then (handleSend r text None) reset_edit)
  end.

(** *** Running a handler *)

(** A synchronous handler invoked on the rendered state [r]. *)
Definition run (h : AppState → list Update) (r : AppState) : AppState :=
  commit (h r) r.

(** The state right after the synchronous part of an [async] handler. *)
Definition started (a : Async) (r : AppState) : AppState :=
  match a with
  | Return us => commit us r
  | Await us _ _ => commit us r
  end.

(** The state once the awaited completion call has settled.  [between]
    is whatever other events did to the state while the call was in
    flight. *)
Definition settled_after (env : Gemini.Env) (a : Async)
    (between : AppState → AppState) (r : AppState) : AppState :=
  match a with
  | Return us => between (commit us r)
  | Await us req k =>
    let reply :=
      Gemini.sendToGeminiWithContext env (req_messages req)
        (req_systemInstruction req) (req_model req) in
    commit (k (fulfilled reply)) (between (commit us r))
  end.

(** No other event occurs while the call is in flight. *)
Definition completed (env : Gemini.Env) (a : Async) (r : AppState)
    : AppState :=
  settled_after env a (λ s, s) r.

End App.

(** ** The text-input widget *)

Module ChatInput.

(** The props that decide what [handleSubmit] does: [inputText] is
    optional with default [""]; [setInputText] is optional, and only
    whether it was passed matters here. *)
Record Props := {
  inputText : option string;
  has_setInputText : bool;
}.

(** Calls the widget makes: to the callbacks in its props, or to the
    setter of its own [localInput] cell. *)
Inductive Call :=
| onSend (text : string)
| setInputText (text : string)
| setLocalInput (text : string).

Definition input (p : Props) (localInput : string) : string :=
  if has_setInputText p then default "" (inputText p) else localInput.

Definition updateInput (p : Props) : string → Call :=
  if has_setInputText p then setInputText else setLocalInput.

Definition handleSubmit (p : Props) (localInput : string) : list Call :=
  if negb (JS.truthy (JS.trim (input p localInput))) then []
  else [onSend (input p localInput); updateInput p ""].

End ChatInput.

(** ** [App] renders [ChatInput] *)

Module Wiring.

(** [<ChatInput onSend=... inputText={editText} setInputText={setEditText} />] *)
Definition props (r : App.AppState) : ChatInput.Props :=
  {| ChatInput.inputText := Some (App.editText r);
     ChatInput.has_setInputText := true |}.

(** What a call made by the widget enqueues in [App]. *)
Definition dispatch (r : App.AppState) (c : ChatInput.Call)
    : option App.Async :=
  match c with
  | ChatInput.onSend text => App.onSend r text
  | ChatInput.setInputText text => Some (App.Return [App.setEditText text])
  | ChatInput.setLocalInput _ => Some (App.Return [])
  end.

(** Sequence the calls of one event; a second [async] call would need
    more than one pending continuation, which the widget never makes. *)
Fixpoint dispatch_all (r : App.AppState) (cs : list ChatInput.Call)
    : option App.Async :=
  match cs with
  | [] => Some (App.Return [])
  | c :: cs' =>
    a ← dispatch r c;
    rest ← dispatch_all r cs';
    match rest with
    | App.Return us => Some (App.and_then a us)
    | App.Await _ _ _ => None
    end
  end.

(** The user submits the form of the chat input. *)
Definition submit (r : App.AppState) : option App.Async :=
  dispatch_all r (ChatInput.handleSubmit (props r) "").

End Wiring.

(** ** The buttons beside a rendered message *)

Module MessageList.

(** The edit button of the message at index [i]: it records the index,
    the text and the role of that message.  Only rendered messages have
    one. *)
Definition onClickEdit (r : App.AppState) (i : nat) : list App.Update :=
  match App.messages r !! i with
  | Some msg =>
    [App.setEditIndex (Some i); App.setEditText (text msg);
     App.setEditRole (Some (role msg))]
  | None => []
  end.

(** The resend button: rendered for user messages only, and disabled
    while a send is in flight. *)
Definition onClickResend (r : App.AppState) (i : nat) : App.Async :=
  match App.messages r !! i with
  | Some msg =>
    if decide (role msg = user) then
      if App.isLoading r then App.Return [] else App.handleResend r i
    else App.Return []
  | None => App.Return []
  end.

Definition onCancelEdit : list App.Update :=
  [App.setEditIndex None; App.setEditText ""; App.setEditRole None].

End MessageList.

(** ** Start-up: reading the persisted state *)

Module Mount.

(** What [localStorage.getItem] returns for the four keys. *)
Record LocalStorage := {
  gemini_conversations : option string;
  gemini_current_conversation_id : option string;
  gemini_system_instruction_presets : option string;
  gemini_selected_model : option string;
}.

(** [JSON.parse] at the types the application stores; [None] when it
    throws. *)
Record JSON := {
  parse_conversations : string → option (list Conversation.t);
  parse_id : string → option string;
  parse_presets : string → option (list SystemInstructionPreset.t);
  parse_model : string → option string;
}.

Definition getInitialPresets (ls : LocalStorage) (json : JSON)
    : list SystemInstructionPreset.t :=
  match gemini_system_instruction_presets ls with
  | Some savedPresets =>
    if JS.truthy savedPresets
    then default [] (parse_presets json savedPresets)
    else []
  | None => []
  end.

Definition initialModel (ls : LocalStorage) (json : JSON) : string :=
  match gemini_selected_model ls with
  | Some savedModel =>
    if JS.truthy savedModel
    then default "gemini-2.5-flash" (parse_model json savedModel)
    else "gemini-2.5-flash"
  | None => "gemini-2.5-flash"
  end.

(** The state of the first render. *)
Definition initialState (ls : LocalStorage) (json : JSON) : App.AppState :=
  {| App.conversations := [];
     App.currentConversationId := None;
     App.isLoading := false;
     App.editIndex := None;
     App.editText := "";
     App.editRole := None;
     App.systemInstructionPresets := getInitialPresets ls json;
     App.selectedModel := initialModel ls json |}.

(** The effect that runs once after the first render [r].  Whatever is
    thrown inside its [try] lands in the [catch], which starts a new chat;
    updates enqueued before the throw stay enqueued. *)
Definition loadEffect (ls : LocalStorage) (json : JSON) (r : App.AppState)
    (newId : string) : list App.Update :=
  match gemini_conversations ls with
  | None => App.handleNewChat r newId
  | Some savedConversations =>
    if negb (JS.truthy savedConversations) then App.handleNewChat r newId
    else
      match parse_conversations json savedConversations with
      | None => App.handleNewChat r newId
      | Some parsedConversations =>
        let pick_first :=
          match parsedConversations with
          | c :: _ => [App.setCurrentConversationId (Conversation.id c)]
          | [] => []
          end in
        App.setConversations (λ _, parsedConversations) ::
        match gemini_current_conversation_id ls with
        | None => pick_first
        | Some savedId =>
          if negb (JS.truthy savedId) then pick_first
          else
            match parse_id json savedId with
            | Some id => [App.setCurrentConversationId id]
            | None => App.handleNewChat r newId
            end
        end
      end
  end.

(** The application once mounted. *)
Definition mounted (ls : LocalStorage) (json : JSON) (newId : string)
    : App.AppState :=
  App.run (λ r, loadEffect ls json r newId) (initialState ls json).

End Mount.

(** ** The credential form *)

Module ApiKeyInput.

(** [handleSave]: [localStorage.setItem("gemini_api_key", apiKey)], seen
    from the completion call that reads the key. *)
Definition handleSave (apiKey : string) (env : Gemini.Env) : Gemini.Env :=
  {| Gemini.gemini_api_key := Some apiKey;
     Gemini.generateContent := Gemini.generateContent env |}.

End ApiKeyInput.

(** ** The slide-out menu *)

Module Menu.

Record Props := {
  conversations : list Conversation.t;
  currentConversationId : option string;
  systemInstruction : string;
  systemInstructionPresets : list SystemInstructionPreset.t;
  selectedModel : string;
}.

(** The [useState] cells of [Menu]. *)
Record State := {
  isOpen : bool;
  editingId : option string;
  editingName : string;
  selectedPresetName : string;
}.

(** Calls the menu makes: to the callbacks in its props, or to the
    setters of its own cells. *)
Inductive Call :=
| onNewChat
| onSwitchConversation (id : string)
| onClear
| onDeleteConversation (id : string)
| onRenameConversation (id newName : string)
| onSystemInstructionChange (text : string)
| onAddSystemInstructionPreset (name : string)
| onDeleteSystemInstructionPreset (name : string)
| onModelChange (modelName : string)
| setIsOpen (v : bool)
| setEditingId (v : option string)
| setEditingName (v : string)
| setSelectedPresetName (v : string).

(** The effect that keeps the preset drop-down in line with the current
    system instruction. *)
Definition syncSelectedPreset (p : Props) : list Call :=
  let currentPresetName :=
    default ""
      (SystemInstructionPreset.name <$>
         JS.find (λ q, SystemInstructionPreset.instruction q
                       = systemInstruction p)
                 (systemInstructionPresets p)) in
  [setSelectedPresetName currentPresetName].

Definition handleSwitch (m : State) (id : string) : list Call :=
  if decide (editingId m ≠ Some id)
  then [onSwitchConversation id; setIsOpen false]
  else [].

Definition handleNewChat : list Call := [onNewChat; setIsOpen false].

Definition handleDelete (id : string) : list Call :=
  [onDeleteConversation id].

Definition handleDoubleClick (id currentName : string) : list Call :=
  [setEditingId (Some id); setEditingName currentName].

Definition handleRename (m : State) : list Call :=
  match editingId m with
  | Some id =>
    if JS.truthy id && JS.truthy (JS.trim (editingName m))
    then [onRenameConversation id (JS.trim (editingName m))]
    else []
  | None => []
  end ++ [setEditingId None; setEditingName ""].

Definition handleRenameKeyDown (m : State) (key : string) : list Call :=
  (if decide (key = "Enter") then handleRename m else []) ++
  (if decide (key = "Escape") then [setEditingId None] else []).

(** The characters of the class in the regular expression of the export:
    backslash, slash, colon, asterisk, question mark, double quote,
    less-than, greater-than and vertical bar. *)
Definition illegal : list ascii :=
  ["\"; "/"; ":"; "*"; "?"; "034"; "<"; ">"; "|"]%char.

(** [name.replace] of every character of the class by an underscore.
    The characters of the class are ASCII, so replacing them byte by byte
    is replacing them character by character. *)
Fixpoint sanitize (s : string) : string :=
  match s with
  | EmptyString => EmptyString
  | String c rest =>
    String (if bool_decide (c ∈ illegal) then "_"%char else c)
           (sanitize rest)
  end.

(** [toUpperCase] on a basic Latin letter; the role names have no other
    characters. *)
Definition toUpperCase (c : ascii) : ascii :=
  let n := nat_of_ascii c in
  if bool_decide (97 ≤ n ≤ 122) then ascii_of_nat (n - 32) else c.

(** [s.charAt(0).toUpperCase() + s.slice(1)] *)
Definition capitalize (s : string) : string :=
  match s with
  | EmptyString => EmptyString
  | String c rest => String (toUpperCase c) rest
  end.

Definition role_name (r : Role) : string :=
  match r with
  | user => "user"
  | model => "model"
  end.

Definition LF : string := String "010"%char EmptyString.

Definition markdownContent (convo : Conversation.t) : string :=
  "# Conversation: " +:+ Conversation.name convo +:+ LF +:+ LF +:+
  Strings.String.concat (LF +:+ LF +:+ "---" +:+ LF +:+ LF)
    ((λ msg, "**" +:+ capitalize (role_name (role msg)) +:+ ":**" +:+
             LF +:+ LF +:+ text msg)
       <$> Conversation.messages convo).

(** [handleExport]: the name and the content of the file offered for
    download, if any. *)
Definition handleExport (p : Props) : option (string * string) :=
  match currentConversationId p with
  | None => None
  | Some cid =>
    currentConvo ← JS.find (λ c, Conversation.id c = cid) (conversations p);
    Some (sanitize (Conversation.name currentConvo) +:+ ".md",
          markdownContent currentConvo)
  end.

Definition handlePresetChange (p : Props) (name : string) : list Call :=
  setSelectedPresetName name ::
  match JS.find (λ q, SystemInstructionPreset.name q = name)
                (systemInstructionPresets p) with
  | Some selectedPreset =>
    [onSystemInstructionChange
       (SystemInstructionPreset.instruction selectedPreset)]
  | None => [onSystemInstructionChange ""]
  end.

(** [promptResult] is what [prompt(...)] returns: the text typed, or
    [None] when the dialog is dismissed. *)
Definition handleSavePreset (p : Props) (promptResult : option string)
    : list Call :=
  match promptResult with
  | Some name =>
    if JS.truthy name && JS.truthy (JS.trim (systemInstruction p))
    then [onAddSystemInstructionPreset name]
    else []
  | None => []
  end.

(** [confirmResult] is what [confirm(...)] returns if it gets asked. *)
Definition handleDeletePreset (m : State) (confirmResult : bool)
    : list Call :=
  if JS.truthy (selectedPresetName m) && confirmResult
  then [onDeleteSystemInstructionPreset (selectedPresetName m)]
  else [].

End Menu.

(** ** [App] renders [Menu] *)

Module MenuWiring.

Definition props (r : App.AppState) : Menu.Props :=
  {| Menu.conversations := App.conversations r;
     Menu.currentConversationId := App.currentConversationId r;
     Menu.systemInstruction := App.systemInstruction r;
     Menu.systemInstructionPresets := App.systemInstructionPresets r;
     Menu.selectedModel := App.selectedModel r |}.

(** What a call made by the menu enqueues in [App]; [newId] is what
    [uuidv4()] returns if it gets called. *)
Definition dispatch (r : App.AppState) (newId : string) (c : Menu.Call)
    : list App.Update :=
  match c with
  | Menu.onNewChat => App.handleNewChat r newId
  | Menu.onSwitchConversation id => App.handleSwitchConversation r id
  | Menu.onClear => App.handleClearChat r
  | Menu.onDeleteConversation id => App.handleDeleteConversation r newId id
  | Menu.onRenameConversation id newName =>
    App.handleRenameConversation r id newName
  | Menu.onSystemInstructionChange text =>
    App.handleSystemInstructionChange r text
  | Menu.onAddSystemInstructionPreset name =>
    App.handleAddSystemInstructionPreset r name
  | Menu.onDeleteSystemInstructionPreset name =>
    App.handleDeleteSystemInstructionPreset r name
  | Menu.onModelChange modelName => [App.setSelectedModel modelName]
  | Menu.setIsOpen _ | Menu.setEditingId _ | Menu.setEditingName _
  | Menu.setSelectedPresetName _ => []
  end.

(** The state of [App] after one event of the menu. *)
Definition after (r : App.AppState) (newId : string) (cs : list Menu.Call)
    : App.AppState :=
  App.commit (concat (dispatch r newId <$> cs)) r.

(** The cells of [Menu] after one event. *)
Definition apply_local (m : Menu.State) (c : Menu.Call) : Menu.State :=
  match c with
  | Menu.setIsOpen v =>
    {| Menu.isOpen := v; Menu.editingId := Menu.editingId m;
       Menu.editingName := Menu.editingName m;
       Menu.selectedPresetName := Menu.selectedPresetName m |}
  | Menu.setEditingId v =>
    {| Menu.isOpen := Menu.isOpen m; Menu.editingId := v;
       Menu.editingName := Menu.editingName m;
       Menu.selectedPresetName := Menu.selectedPresetName m |}
  | Menu.setEditingName v =>
    {| Menu.isOpen := Menu.isOpen m; Menu.editingId := Menu.editingId m;
       Menu.editingName := v;
       Menu.selectedPresetName := Menu.selectedPresetName m |}
  | Menu.setSelectedPresetName v =>
    {| Menu.isOpen := Menu.isOpen m; Menu.editingId := Menu.editingId m;
       Menu.editingName := Menu.editingName m;
       Menu.selectedPresetName := v |}
  | _ => m
  end.

Definition after_local (m : Menu.State) (cs : list Menu.Call) : Menu.State :=
  foldl apply_local m cs.

End MenuWiring.

(** ** Well-formedness of the conversation store *)

Module Store.

Definition ids (l : list Conversation.t) : list string :=
  Conversation.id <$> l.

(** No two stored conversations have the same id. *)
Definition unique_ids (r : App.AppState) : Prop :=
  NoDup (ids (App.conversations r)).

(** The current pointer names a stored conversation. *)
Definition current_resolves (r : App.AppState) : Prop :=
  is_Some (App.currentConversation r).

(** [c] with another name, messages or instruction. *)
Definition with_name (c : Conversation.t) (n : string) : Conversation.t :=
  {| Conversation.id := Conversation.id c;
     Conversation.name := n;
     Conversation.messages := Conversation.messages c;
     Conversation.systemInstruction := Conversation.systemInstruction c |}.

Definition with_messages (c : Conversation.t) (ms : list Message)
    : Conversation.t :=
  {| Conversation.id := Conversation.id c;
     Conversation.name := Conversation.name c;
     Conversation.messages := ms;
     Conversation.systemInstruction := Conversation.systemInstruction c |}.

Definition with_systemInstruction (c : Conversation.t) (t : string)
    : Conversation.t :=
  {| Conversation.id := Conversation.id c;
     Conversation.name := Conversation.name c;
     Conversation.messages := Conversation.messages c;
     Conversation.systemInstruction := t |}.

End Store.

(** ** A sample state *)

Module Sample.

Definition greeting : Conversation.t :=
  {| Conversation.id := "a";
     Conversation.name := "Conversation 1";
     Conversation.messages :=
       [userMessage "hi"; modelMessage "yo"; userMessage "q2"];
     Conversation.systemInstruction := "Be brief." |}.

Definition other : Conversation.t :=
  {| Conversation.id := "b";
     Conversation.name := "Conversation 2";
     Conversation.messages := [];
     Conversation.systemInstruction := "" |}.

Definition brief : SystemInstructionPreset.t :=
  {| SystemInstructionPreset.name := "short";
     SystemInstructionPreset.instruction := "Be brief." |}.

(** The user is editing the model message at index 1. *)
Definition state : App.AppState :=
  {| App.conversations := [greeting; other];
     App.currentConversationId := Some "a";
     App.isLoading := false;
     App.editIndex := Some 1;
     App.editText := "yes";
     App.editRole := Some model;
     App.systemInstructionPresets := [brief];
     App.selectedModel := "gemini-2.5-flash" |}.

(** A credential is stored and the service answers "pong". *)
Definition env : Gemini.Env :=
  {| Gemini.gemini_api_key := Some "key";
     Gemini.generateContent := λ _ _ _ _, Gemini.resolves (Some "pong") |}.

Definition standalone : ChatInput.Props :=
  {| ChatInput.inputText := None; ChatInput.has_setInputText := false |}.

End Sample.

(** ** More sample data *)

Module Fixtures.

(** [Sample.state] outside edit mode. *)
Definition plain : App.AppState :=
  {| App.conversations := [Sample.greeting; Sample.other];
     App.currentConversationId := Some "a";
     App.isLoading := false;
     App.editIndex := None;
     App.editText := "";
     App.editRole := None;
     App.systemInstructionPresets := [Sample.brief];
     App.selectedModel := "gemini-2.5-flash" |}.

(** The user is editing the user message at index 2. *)
Definition editing_user : App.AppState :=
  {| App.conversations := [Sample.greeting; Sample.other];
     App.currentConversationId := Some "a";
     App.isLoading := false;
     App.editIndex := Some 2;
     App.editText := "q2, again";
     App.editRole := Some user;
     App.systemInstructionPresets := [Sample.brief];
     App.selectedModel := "gemini-2.5-flash" |}.

(** The current pointer names a conversation that is not stored. *)
Definition dangling : App.AppState :=
  {| App.conversations := [Sample.other];
     App.currentConversationId := Some "gone";
     App.isLoading := false;
     App.editIndex := None;
     App.editText := "";
     App.editRole := None;
     App.systemInstructionPresets := [];
     App.selectedModel := "gemini-2.5-flash" |}.

(** The menu while conversation "a" is being renamed. *)
Definition renaming : Menu.State :=
  {| Menu.isOpen := true;
     Menu.editingId := Some "a";
     Menu.editingName := "  Trip notes ";
     Menu.selectedPresetName := "" |}.

Definition nothing_saved : Mount.LocalStorage :=
  {| Mount.gemini_conversations := None;
     Mount.gemini_current_conversation_id := None;
     Mount.gemini_system_instruction_presets := None;
     Mount.gemini_selected_model := None |}.

Definition saved_with_id : Mount.LocalStorage :=
  {| Mount.gemini_conversations := Some "saved conversations";
     Mount.gemini_current_conversation_id := Some "saved id";
     Mount.gemini_system_instruction_presets := None;
     Mount.gemini_selected_model := None |}.

Definition saved_with_bad_id : Mount.LocalStorage :=
  {| Mount.gemini_conversations := Some "saved conversations";
     Mount.gemini_current_conversation_id := Some "garbage";
     Mount.gemini_system_instruction_presets := None;
     Mount.gemini_selected_model := None |}.

(** A parser that knows the two saved items above. *)
Definition json : Mount.JSON :=
  {| Mount.parse_conversations := λ raw,
       if decide (raw = "saved conversations")
       then Some [Sample.greeting; Sample.other] else None;
     Mount.parse_id := λ raw,
       if decide (raw = "saved id") then Some "b" else None;
     Mount.parse_presets := λ _, None;
     Mount.parse_model := λ _, None |}.

End Fixtures.

(** ** The completion call as a promise *)

Module GeminiCall.

(** What [localStorage.getItem("gemini_api_key")] does on line 26, before
    the [try]: it returns a string or null, or it throws (storage access
    can be denied). *)
Inductive Read :=
| returns (value : option string)
| throws.

(** The body of the [try]: it settles the way [Gemini.Outcome] says, or
    the awaited SDK call never settles (there is no timeout). *)
Inductive Attempt :=
| settles (o : Gemini.Outcome)
| never_settles.

Record World := {
  getItem : Read;
  generateContent :
    string → string → list Gemini.Content → string → Attempt;
}.

(** The promise returned by the [async] function. *)
Inductive Promise :=
| fulfilled (value : string)
| rejected
| pending.

Definition sendToGeminiWithContext (w : World) (messages : list Message)
    (systemInstructionText : string) (modelName : string) : Promise :=
  match getItem w with
  | throws => rejected
  | returns None => fulfilled Gemini.missing_key
  | returns (Some apiKey) =>
    if negb (JS.truthy apiKey) then fulfilled Gemini.missing_key
    else
      let contents :=
        (λ msg, {| Gemini.content_role := role msg;
                   Gemini.parts := [text msg] |})
          <$> messages in
      match generateContent w apiKey modelName contents
              systemInstructionText with
      | never_settles => pending
      | settles (Gemini.resolves (Some t)) => fulfilled t
      | settles (Gemini.resolves None) => fulfilled Gemini.empty_response
      | settles (Gemini.throws_Error message) =>
        fulfilled (Gemini.error_prefix +:+ message)
      | settles Gemini.throws_other => fulfilled Gemini.unknown_error
      end
  end.

(** The world in which the read returns and the SDK call settles, as
    [Gemini.Env] describes it. *)
Definition of_env (env : Gemini.Env) : World :=
  {| getItem := returns (Gemini.gemini_api_key env);
     generateContent := λ apiKey modelName contents instruction,
       settles (Gemini.generateContent env apiKey modelName contents
                  instruction) |}.

(** A world where a key is stored and the service answers "pong", one
    where the service hangs, and one where storage is denied. *)
Definition answering : World := of_env Sample.env.

Definition hanging : World :=
  {| getItem := returns (Some "key");
     generateContent := λ _ _ _ _, never_settles |}.

Definition storage_denied : World :=
  {| getItem := throws;
     generateContent := λ _ _ _ _, never_settles |}.

End GeminiCall.

(** ** A conversation whose name needs sanitizing *)

Module ExportSample.

Definition trip : Conversation.t :=
  {| Conversation.id := "t";
     Conversation.name := "Trip: day 1";
     Conversation.messages := [userMessage "hi"; modelMessage "yo"];
     Conversation.systemInstruction := "" |}.

Definition props : Menu.Props :=
  {| Menu.conversations := [Sample.other; trip];
     Menu.currentConversationId := Some "t";
     Menu.systemInstruction := "";
     Menu.systemInstructionPresets := [];
     Menu.selectedModel := "gemini-2.5-flash" |}.

End ExportSample.

(** * Properties *)

Import App.

(** ** Committing updates *)

Lemma commit_nil s : commit [] s = s.
Proof. reflexivity. Qed.

Lemma commit_cons u us s : commit (u :: us) s = commit us (apply s u).
Proof. reflexivity. Qed.

Lemma commit_app us vs s : commit (us ++ vs) s = commit vs (commit us s).
Proof. unfold commit. apply foldl_app. Qed.

(** ** Looking a conversation up by id *)

Section find_by_id.
Implicit Types (l : list Conversation.t) (c : Conversation.t).

Lemma find_Some_id l cid c :
  JS.find (λ c, Conversation.id c = cid) l = Some c →
  Conversation.id c = cid ∧ c ∈ l.
Proof.
  unfold JS.find. destruct (list_find _ l) as [[i x]|] eqn:E; [|done].
  intros [= <-]. apply list_find_Some in E as (Hi & Hx & _).
  split; [done|]. by eapply list_elem_of_lookup_2.
Qed.

Lemma find_cons l cid c :
  JS.find (λ c, Conversation.id c = cid) (c :: l) =
  if decide (Conversation.id c = cid) then Some c
  else JS.find (λ c, Conversation.id c = cid) l.
Proof.
  unfold JS.find. simpl. case_decide; [done|].
  by destruct (list_find _ l) as [[??]|].
Qed.

(** An element-wise change that keeps ids commutes with the look-up. *)
Lemma find_fmap (f : Conversation.t → Conversation.t) l cid :
  (∀ c, Conversation.id (f c) = Conversation.id c) →
  JS.find (λ c, Conversation.id c = cid) (f <$> l) =
  f <$> JS.find (λ c, Conversation.id c = cid) l.
Proof.
  intros Hf. induction l as [|c l IH]; [done|].
  rewrite fmap_cons, !find_cons, Hf, IH. by case_decide.
Qed.

Lemma find_app_fresh l cid c :
  (∀ c', c' ∈ l → Conversation.id c' ≠ cid) →
  Conversation.id c = cid →
  JS.find (λ c, Conversation.id c = cid) (l ++ [c]) = Some c.
Proof.
  intros Hl Hc. induction l as [|c' l IH]; simpl.
  - rewrite find_cons. by rewrite decide_True.
  - rewrite find_cons, decide_False; [|apply Hl; left].
    apply IH. intros c'' ?. apply Hl. by right.
Qed.

Lemma spread_id c (p : Partial.t) :
  Partial.id p = None →
  Conversation.id (Partial.spread c p) = Conversation.id c.
Proof. intros Hp. simpl. by rewrite Hp. Qed.

Lemma updated_id id (p : Partial.t) c :
  Partial.id p = None →
  Conversation.id
    (if decide (Conversation.id c = id) then Partial.spread c p else c)
  = Conversation.id c.
Proof. intros Hp. case_decide; [by apply spread_id|done]. Qed.
End find_by_id.

(** ** The effect of [updateConversation] on the rendered accessors *)

Lemma currentConversation_Some_id r c :
  currentConversation r = Some c →
  currentConversationId r = Some (Conversation.id c).
Proof.
  unfold currentConversation. destruct (currentConversationId r); [|done].
  intros [-> _]%find_Some_id. done.
Qed.

Lemma currentConversation_update s cid (p : Partial.t) c :
  Partial.id p = None →
  currentConversation s = Some c →
  Conversation.id c = cid →
  currentConversation (apply s (updateConversation cid p))
  = Some (Partial.spread c p).
Proof.
  intros Hp Hc Hid. pose proof (currentConversation_Some_id _ _ Hc) as Hcur.
  unfold currentConversation in *. simpl. rewrite Hcur in *.
  rewrite find_fmap by (intros; by apply updated_id).
  rewrite Hc. simpl. by rewrite decide_True.
Qed.

Lemma messages_update s cid ms c :
  currentConversation s = Some c →
  Conversation.id c = cid →
  messages (apply s (updateConversation cid (Partial.of_messages ms))) = ms.
Proof.
  intros Hc Hid. unfold messages.
  by erewrite currentConversation_update.
Qed.

Lemma currentConversation_setIsLoading s b :
  currentConversation (apply s (setIsLoading b)) = currentConversation s.
Proof. reflexivity. Qed.

(** ** Sending *)

Lemma truthy_spec s : JS.truthy s = true ↔ s ≠ "".
Proof. unfold JS.truthy. by rewrite bool_decide_eq_true. Qed.

Lemma messages_nonempty_current r i m :
  messages r !! i = Some m → ∃ c, currentConversation r = Some c.
Proof.
  unfold messages. destruct (currentConversation r) as [c|]; [eauto|].
  simpl. by rewrite lookup_nil.
Qed.

(** [handleSend] on a current conversation with a usable id: the
    synchronous part, and the part after the completion call. *)
Lemma handleSend_Await r c userText baseMessages :
  currentConversation r = Some c →
  Conversation.id c ≠ "" →
  let cid := Conversation.id c in
  let newMessages := default (messages r) baseMessages ++ [userMessage userText] in
  handleSend r userText baseMessages =
  Await
    [updateConversation cid (Partial.of_messages newMessages);
     setIsLoading true]
    {| req_messages := newMessages;
       req_systemInstruction := systemInstruction r;
       req_model := selectedModel r |}
    (λ settled,
       match settled with
       | fulfilled reply =>
         [updateConversation cid
            (Partial.of_messages (newMessages ++ [modelMessage reply]));
          setIsLoading false]
       | rejected => [setIsLoading false]
       end).
Proof.
  intros Hc Hid. unfold handleSend.
  rewrite (currentConversation_Some_id _ _ Hc).
  apply truthy_spec in Hid. by rewrite Hid.
Qed.

Lemma handleSend_run env r c userText baseMessages :
  currentConversation r = Some c →
  Conversation.id c ≠ "" →
  let newMessages := default (messages r) baseMessages ++ [userMessage userText] in
  let reply :=
    Gemini.sendToGeminiWithContext env newMessages (systemInstruction r)
      (selectedModel r) in
  let a := handleSend r userText baseMessages in
  messages (started a r) = newMessages ∧
  isLoading (started a r) = true ∧
  messages (completed env a r) = newMessages ++ [modelMessage reply] ∧
  isLoading (completed env a r) = false.
Proof.
  intros Hc Hid newMessages reply a. subst a reply newMessages.
  rewrite (handleSend_Await _ _ _ _ Hc Hid).
  unfold completed, settled_after, started. rewrite !commit_cons, !commit_nil.
  set (newMessages := default (messages r) baseMessages ++ _).
  assert (currentConversation
            (apply r (updateConversation (Conversation.id c)
                        (Partial.of_messages newMessages)))
          = Some (Partial.spread c (Partial.of_messages newMessages))) as H1
    by by apply currentConversation_update.
  repeat split.
  - unfold messages. rewrite currentConversation_setIsLoading. by rewrite H1.
  - unfold messages. rewrite currentConversation_setIsLoading.
    rewrite <- (currentConversation_setIsLoading _ true) in H1.
    erewrite currentConversation_update; [done|done|exact H1|done].
Qed.


(** While the call is in flight other events may run.  As long as they
    leave the conversation list alone (switching to another conversation,
    say), the reply still lands in the conversation the send started in. *)
Lemma handleSend_reply_lands_in_its_conversation
    env r c userText baseMessages (between : AppState → AppState) :
  currentConversation r = Some c →
  Conversation.id c ≠ "" →
  (∀ s, conversations (between s) = conversations s) →
  let newMessages :=
    default (messages r) baseMessages ++ [userMessage userText] in
  let reply :=
    Gemini.sendToGeminiWithContext env newMessages (systemInstruction r)
      (selectedModel r) in
  let s := settled_after env (handleSend r userText baseMessages) between r in
  Conversation.messages <$>
    JS.find (λ c', Conversation.id c' = Conversation.id c) (conversations s)
  = Some (newMessages ++ [modelMessage reply]) ∧
  isLoading s = false.
Proof.
  intros Hc Hid Hbetween newMessages reply s. subst s reply newMessages.
  rewrite (handleSend_Await _ _ _ _ Hc Hid).
  unfold settled_after. rewrite !commit_cons, !commit_nil.
  split; [|done]. simpl. rewrite Hbetween. simpl.
  rewrite !find_fmap by (intros; by apply updated_id).
  pose proof (currentConversation_Some_id _ _ Hc) as Hcur.
  unfold currentConversation in Hc. rewrite Hcur in Hc. rewrite Hc.
  simpl.
  destruct (decide (Conversation.id c = Conversation.id c)); [|done].
  simpl. by rewrite decide_True.
Qed.


(** C1: when the message at [index] is user-authored (and the current id
    is a non-empty string, as every id made by [uuidv4()] is),
    [handleResend] first leaves exactly the [index] messages before it
    followed by a user message with the original text, and ends with the
    model reply appended to those; when there is no message at [index] or
    it is not user-authored, nothing is enqueued and the state is
    unchanged. *)
Theorem handleResend_truncates_and_resends env r index :
  let a := handleResend r index in
  match messages r !! index with
  | Some m =>
    if decide (role m = user) then
      JS.truthy_opt (currentConversationId r) = true →
      let kept := take index (messages r) in
      let reply :=
        Gemini.sendToGeminiWithContext env (kept ++ [userMessage (text m)])
          (systemInstruction r) (selectedModel r) in
      length kept = index ∧
      messages (started a r) = kept ++ [userMessage (text m)] ∧
      messages (completed env a r)
      = kept ++ [userMessage (text m); modelMessage reply]
    else a = Return [] ∧ started a r = r ∧ completed env a r = r
  | None => a = Return [] ∧ started a r = r ∧ completed env a r = r
  end.
Proof.
  intros a. subst a. unfold handleResend.
  destruct (messages r !! index) as [m|] eqn:Hm; [|done].
  destruct (decide (role m = user)) as [Hu|Hu].
  - intros Hid. rewrite decide_False by (by intros ?).
    destruct (messages_nonempty_current _ _ _ Hm) as [c Hc].
    assert (Conversation.id c ≠ "") as Hne.
    { rewrite (currentConversation_Some_id _ _ Hc) in Hid.
      by apply truthy_spec. }
    destruct (handleSend_run env r c (text m) (Some (take index (messages r)))
                Hc Hne) as (H1 & _ & H3 & _).
    simpl in H1, H3. split_and!; [|done|].
    + apply length_take_le. apply lookup_lt_Some in Hm. lia.
    + rewrite H3. by rewrite <- app_assoc.
  - by rewrite decide_True.
Qed.

(** ** Creating, deleting and switching conversations *)

(** [handleNewChat] invoked on the rendered state, with an id that no
    stored conversation has: one conversation is appended, numbered after
    the rendered count, empty, and it is the current one. *)
Lemma handleNewChat_spec r newId :
  (∀ c, c ∈ conversations r → Conversation.id c ≠ newId) →
  let s := run (λ r, handleNewChat r newId) r in
  let c :=
    {| Conversation.id := newId;
       Conversation.name :=
         "Conversation " +:+ JS.show_nat (length (conversations r) + 1);
       Conversation.messages := [];
       Conversation.systemInstruction := "" |} in
  conversations s = conversations r ++ [c] ∧
  currentConversationId s = Some newId ∧
  currentConversation s = Some c.
Proof.
  intros Hfresh. unfold run, handleNewChat.
  rewrite !commit_cons, commit_nil. split_and!; [done|done|].
  unfold currentConversation. simpl. by apply find_app_fresh.
Qed.

(** C2: deleting the current conversation leaves a current id that
    resolves to a member of the store: the first remaining conversation
    or, when none remains, the one conversation created on the spot. *)
Theorem handleDeleteConversation_current_resolves r newId id :
  currentConversationId r = Some id →
  let s := run (λ r, handleDeleteConversation r newId id) r in
  let remaining := filter (λ c, Conversation.id c ≠ id) (conversations r) in
  ∃ c, currentConversation s = Some c ∧ c ∈ conversations s ∧
    match remaining with
    | first :: _ => conversations s = remaining ∧ c = first
    | [] =>
      conversations s = [c] ∧ Conversation.id c = newId ∧
      Conversation.messages c = [] ∧ Conversation.systemInstruction c = ""
    end.
Proof.
  intros Hcur s remaining. subst s. unfold run, handleDeleteConversation.
  rewrite decide_True by done. fold remaining.
  destruct remaining as [|first rest] eqn:Hrem.
  - eexists. unfold handleNewChat. rewrite !commit_cons, commit_nil.
    unfold currentConversation. simpl. fold remaining. rewrite Hrem. simpl.
    rewrite find_cons, decide_True by done.
    split_and!; [done|by left|done..].
  - exists first. rewrite !commit_cons, commit_nil.
    unfold currentConversation. simpl. fold remaining. rewrite Hrem.
    rewrite find_cons, decide_True by done.
    split_and!; [done|by left|done..].
Qed.

(** When the deleted conversation is current and none remains, the
    replacement is numbered after the rendered list, which still holds
    what is being deleted. *)
Lemma handleDeleteConversation_none_remaining r newId id :
  currentConversationId r = Some id →
  filter (λ c, Conversation.id c ≠ id) (conversations r) = [] →
  conversations (run (λ r, handleDeleteConversation r newId id) r)
  = [ {| Conversation.id := newId;
         Conversation.name :=
           "Conversation " +:+ JS.show_nat (length (conversations r) + 1);
         Conversation.messages := [];
         Conversation.systemInstruction := "" |} ].
Proof.
  intros Hcur Hnone. unfold run, handleDeleteConversation.
  rewrite decide_True by done. rewrite Hnone. unfold handleNewChat.
  rewrite !commit_cons, commit_nil. simpl. by rewrite Hnone.
Qed.

(** C3: deleting the only conversation creates its replacement from the
    rendered state, which still counts the deleted one: no conversation
    remains after the removal, yet the single conversation the store ends
    with is named "Conversation 2", not "Conversation 1". *)
Theorem handleDeleteConversation_last_is_named_2 newId :
  let only :=
    {| Conversation.id := "a"; Conversation.name := "Conversation 1";
       Conversation.messages := []; Conversation.systemInstruction := "" |} in
  let r :=
    {| conversations := [only]; currentConversationId := Some "a";
       isLoading := false; editIndex := None; editText := "";
       editRole := None; systemInstructionPresets := [];
       selectedModel := "gemini-2.5-flash" |} in
  let s := run (λ r, handleDeleteConversation r newId "a") r in
  filter (λ c, Conversation.id c ≠ "a") (conversations r) = [] ∧
  conversations s
  = [ {| Conversation.id := newId; Conversation.name := "Conversation 2";
         Conversation.messages := [];
         Conversation.systemInstruction := "" |} ] ∧
  Conversation.name <$> conversations s
  ≠ ["Conversation " +:+ JS.show_nat (0 + 1)].
Proof.
  intros only r s.
  assert (filter (λ c, Conversation.id c ≠ "a") (conversations r) = [])
    as Hnone by reflexivity.
  pose proof (handleDeleteConversation_none_remaining r newId "a"
                eq_refl Hnone) as Hs.
  fold s in Hs. split_and!; [exact Hnone|exact Hs|].
  rewrite Hs. simpl. intros [= ?].
Qed.

(** C5 as stated fails: switching to an id that no conversation has
    still moves the current pointer. *)
Lemma handleSwitchConversation_unknown_id_moves_pointer :
  let only :=
    {| Conversation.id := "a"; Conversation.name := "Conversation 1";
       Conversation.messages := []; Conversation.systemInstruction := "" |} in
  let r :=
    {| conversations := [only]; currentConversationId := Some "a";
       isLoading := false; editIndex := None; editText := "";
       editRole := None; systemInstructionPresets := [];
       selectedModel := "gemini-2.5-flash" |} in
  let s := run (λ r, handleSwitchConversation r "zzz") r in
  (∀ c, c ∈ conversations r → Conversation.id c ≠ "zzz") ∧
  currentConversationId s = Some "zzz" ∧
  currentConversationId s ≠ currentConversationId r ∧
  currentConversation s = None.
Proof.
  simpl. split_and!; [|done|done|done].
  intros c ->%list_elem_of_singleton. done.
Qed.

(** C5, amended: [handleSwitchConversation] sets the current pointer to
    the given id whether or not a conversation has it, and changes nothing
    else: when some stored conversation has the id, the current
    conversation becomes one that has it; when none has, the pointer
    resolves to no conversation and the rendered messages and instruction
    are empty. *)
Theorem handleSwitchConversation_sets_pointer r id :
  let s := run (λ r, handleSwitchConversation r id) r in
  s = apply r (setCurrentConversationId id) ∧
  currentConversationId s = Some id ∧
  conversations s = conversations r ∧
  (∀ c, c ∈ conversations r → Conversation.id c = id →
     ∃ c', currentConversation s = Some c' ∧ Conversation.id c' = id ∧
           c' ∈ conversations r) ∧
  ((∀ c, c ∈ conversations r → Conversation.id c ≠ id) →
     currentConversation s = None ∧ messages s = [] ∧
     systemInstruction s = "").
Proof.
  intros s. subst s. unfold run, handleSwitchConversation.
  rewrite commit_cons, commit_nil. split_and!; [done..| |].
  - intros c Hin Hid. unfold currentConversation. simpl.
    destruct (list_find_elem_of (λ c, Conversation.id c = id)
                (conversations r) c Hin Hid) as [[k c'] Hfind].
    exists c'. unfold JS.find. rewrite Hfind. simpl.
    apply list_find_Some in Hfind as (Hk & Hc' & _).
    split_and!; [done|done|]. by eapply list_elem_of_lookup_2.
  - intros Hnone.
    assert (currentConversation (apply r (setCurrentConversationId id))
            = None) as Hcur.
    { unfold currentConversation, JS.find. simpl.
      assert (list_find (λ c, Conversation.id c = id) (conversations r)
              = None) as ->; [|done].
      apply list_find_None, Forall_forall. exact Hnone. }
    unfold messages, systemInstruction. by rewrite Hcur.
Qed.

(** ** Editing a model message *)

Lemma messages_commit_reset_edit s : messages (commit reset_edit s) = messages s.
Proof. reflexivity. Qed.

Lemma fmap_role_insert (ms : list Message) i m newText :
  ms !! i = Some m →
  role <$> <[i := {| role := role m; text := newText |}]> ms = role <$> ms.
Proof.
  intros Hm. rewrite list_fmap_insert. simpl.
  apply list_insert_id. by rewrite list_lookup_fmap, Hm.
Qed.

(** C6: submitting an edit of the model message at index [i] replaces the
    text of that message and nothing else: the message count, every role
    and every other message are as before.  The current id is assumed to
    be a non-empty string. *)
Theorem edit_model_message_changes_only_its_text r c i m newText :
  currentConversation r = Some c →
  Conversation.id c ≠ "" →
  editIndex r = Some i →
  editRole r = Some model →
  messages r !! i = Some m →
  role m = model →
  ∃ us, onSend r newText = Some (Return us) ∧
    let s := commit us r in
    messages s = <[i := modelMessage newText]> (messages r) ∧
    length (messages s) = length (messages r) ∧
    role <$> messages s = role <$> messages r ∧
    messages s !! i = Some (modelMessage newText) ∧
    (∀ j, j ≠ i → messages s !! j = messages r !! j).
Proof.
  intros Hc Hid Hi Hrole Hm Hmodel. unfold onSend.
  rewrite Hi, Hrole, (currentConversation_Some_id _ _ Hc).
  apply truthy_spec in Hid as Ht. rewrite Ht.
  unfold assign_text. rewrite Hm. simpl. eexists. split; [done|].
  rewrite commit_cons, messages_commit_reset_edit.
  erewrite messages_update; [|done..].
  pose proof (lookup_lt_Some _ _ _ Hm) as Hlt.
  split_and!.
  - unfold modelMessage. by rewrite Hmodel.
  - by rewrite length_insert.
  - by apply fmap_role_insert.
  - rewrite list_lookup_insert_eq by done. unfold modelMessage.
    by rewrite Hmodel.
  - intros j Hj. by rewrite list_lookup_insert_ne.
Qed.

(** ** Presets *)

Lemma find_preset_None name (ps : list SystemInstructionPreset.t) :
  list_find (λ p, SystemInstructionPreset.name p = name) ps = None ↔
  name ∉ SystemInstructionPreset.names ps.
Proof.
  unfold SystemInstructionPreset.names.
  rewrite list_find_None, Forall_forall, list_elem_of_fmap. split.
  - intros H (p & -> & Hp). by eapply H.
  - intros H p Hp Hn. apply H. eauto.
Qed.

(** C7: saving a preset under a name that some entry already has replaces
    the first such entry in place, so the list of names and its length are
    unchanged; saving under a new name appends one entry; either way
    names that were pairwise distinct stay so. *)
Theorem handleAddSystemInstructionPreset_upsert r c name :
  currentConversation r = Some c →
  let prev := systemInstructionPresets r in
  let next :=
    systemInstructionPresets
      (run (λ r, handleAddSystemInstructionPreset r name) r) in
  let newPreset :=
    {| SystemInstructionPreset.name := name;
       SystemInstructionPreset.instruction :=
         Conversation.systemInstruction c |} in
  (name ∈ SystemInstructionPreset.names prev →
     ∃ i old,
       prev !! i = Some old ∧ SystemInstructionPreset.name old = name ∧
       (∀ j q, prev !! j = Some q → j < i →
          SystemInstructionPreset.name q ≠ name) ∧
       next = <[i := newPreset]> prev ∧
       next !! i = Some newPreset ∧
       SystemInstructionPreset.names next = SystemInstructionPreset.names prev ∧
       length next = length prev) ∧
  (name ∉ SystemInstructionPreset.names prev → next = prev ++ [newPreset]) ∧
  (NoDup (SystemInstructionPreset.names prev) → NoDup (SystemInstructionPreset.names next)).
Proof.
  intros Hc prev next newPreset. subst next.
  unfold run, handleAddSystemInstructionPreset. rewrite Hc.
  rewrite commit_cons, commit_nil. simpl. fold prev. fold newPreset.
  unfold JS.findIndex.
  destruct (list_find _ prev) as [[i old]|] eqn:E; simpl.
  - apply list_find_Some in E as (Hi & Hold & Hfirst).
    pose proof (lookup_lt_Some _ _ _ Hi) as Hlt.
    assert (SystemInstructionPreset.names (<[i:=newPreset]> prev) = SystemInstructionPreset.names prev) as Hn.
    { unfold SystemInstructionPreset.names.
      rewrite list_fmap_insert. apply list_insert_id.
      rewrite list_lookup_fmap, Hi. simpl. by rewrite Hold. }
    split_and!.
    + intros _. exists i, old. split_and!; [done|done|done|done| |done|].
      * by rewrite list_lookup_insert_eq.
      * by rewrite length_insert.
    + intros Hnot. exfalso. apply Hnot. apply list_elem_of_fmap.
      exists old. split; [done|]. by eapply list_elem_of_lookup_2.
    + by rewrite Hn.
  - apply find_preset_None in E. split_and!; [done|done|].
    intros Hnd. unfold SystemInstructionPreset.names in *.
    rewrite fmap_app. apply NoDup_app. split_and!; [done| |].
    + intros x Hx ->%list_elem_of_singleton. done.
    + apply NoDup_singleton.
Qed.

Lemma systemInstruction_update s cid t c :
  currentConversation s = Some c →
  Conversation.id c = cid →
  systemInstruction
    (apply s (updateConversation cid (Partial.of_systemInstruction t))) = t ∧
  messages (apply s (updateConversation cid (Partial.of_systemInstruction t)))
  = messages s.
Proof.
  intros Hc Hid. unfold systemInstruction, messages.
  erewrite currentConversation_update; [|done..]. by rewrite Hc.
Qed.

(** C8: deleting a preset removes every entry of that name; when the
    deleted preset's instruction is the very text of the active
    conversation's instruction (and the current id is a non-empty string),
    that instruction becomes empty; when the texts differ, the
    conversations are untouched. *)
Theorem handleDeleteSystemInstructionPreset_clears_on_equal_text r c p name :
  currentConversation r = Some c →
  JS.find (λ p, SystemInstructionPreset.name p = name)
          (systemInstructionPresets r) = Some p →
  let s := run (λ r, handleDeleteSystemInstructionPreset r name) r in
  (systemInstructionPresets s
   = filter (λ q, SystemInstructionPreset.name q ≠ name)
            (systemInstructionPresets r)) ∧
  (name ∉ SystemInstructionPreset.names (systemInstructionPresets s)) ∧
  (SystemInstructionPreset.instruction p = Conversation.systemInstruction c →
   Conversation.id c ≠ "" →
   systemInstruction s = "" ∧ messages s = messages r) ∧
  (SystemInstructionPreset.instruction p ≠ Conversation.systemInstruction c →
   systemInstruction s = systemInstruction r ∧
   conversations s = conversations r).
Proof.
  intros Hc Hp s. subst s. unfold run, handleDeleteSystemInstructionPreset.
  rewrite Hp, Hc. simpl fmap. rewrite commit_cons.
  split_and!.
  - by case_decide; [unfold handleSystemInstructionChange;
      destruct (currentConversationId r) as [cid|];
      [destruct (JS.truthy cid)|]|].
  - assert (name ∉ SystemInstructionPreset.names
              (filter (λ q, SystemInstructionPreset.name q ≠ name)
                      (systemInstructionPresets r))) as Hnot.
    { unfold SystemInstructionPreset.names.
      intros (q & -> & Hq)%list_elem_of_fmap.
      by apply list_elem_of_filter in Hq as [? _]. }
    by case_decide; [unfold handleSystemInstructionChange;
      destruct (currentConversationId r) as [cid|];
      [destruct (JS.truthy cid)|]|].
  - intros Heq Hid. rewrite decide_True by (by rewrite Heq).
    unfold handleSystemInstructionChange.
    rewrite (currentConversation_Some_id _ _ Hc).
    apply truthy_spec in Hid as ->. rewrite commit_cons, commit_nil.
    exact (systemInstruction_update
             (apply r (setSystemInstructionPresets _)) _ "" c Hc eq_refl).
  - intros Hne. rewrite decide_False by (by intros [= ?]).
    done.
Qed.

(** ** The completion call *)

(** C9 as stated fails: when what is thrown inside the call is not an
    [Error], the result is a fourth fixed string, which is not a reply,
    not one of the strings for a missing credential or an empty response,
    and carries no captured message. *)
Lemma sendToGeminiWithContext_fourth_sentinel :
  let env :=
    {| Gemini.gemini_api_key := Some "key";
       Gemini.generateContent := λ _ _ _ _, Gemini.throws_other |} in
  let result :=
    Gemini.sendToGeminiWithContext env [userMessage "hi"] ""
      "gemini-2.5-flash" in
  result = "⚠️ 不明なエラーが発生しました。" ∧
  result ≠ Gemini.missing_key ∧
  result ≠ Gemini.empty_response ∧
  (∀ message, result ≠ Gemini.error_prefix +:+ message) ∧
  (∀ key model contents instruction reply,
     Gemini.generateContent env key model contents instruction
     ≠ Gemini.resolves (Some reply)).
Proof.
  simpl. split_and!; [done|done|done| |done].
  intros message. vm_compute. discriminate.
Qed.

(** Once the credential has been read and the SDK call has settled, the
    result is the reply text or one of four fixed or prefixed strings: for
    a missing credential, for a response without text, for a thrown
    [Error] (carrying its message), and for any other thrown value. *)
Theorem sendToGeminiWithContext_total env ms instruction modelName :
  let result :=
    Gemini.sendToGeminiWithContext env ms instruction modelName in
  (JS.truthy_opt (Gemini.gemini_api_key env) = false ∧
   result = Gemini.missing_key) ∨
  (∃ key,
     Gemini.gemini_api_key env = Some key ∧ key ≠ "" ∧
     let contents :=
       (λ msg, {| Gemini.content_role := role msg;
                  Gemini.parts := [text msg] |}) <$> ms in
     match Gemini.generateContent env key modelName contents instruction with
     | Gemini.resolves (Some reply) => result = reply
     | Gemini.resolves None => result = Gemini.empty_response
     | Gemini.throws_Error message =>
       result = Gemini.error_prefix +:+ message
     | Gemini.throws_other => result = Gemini.unknown_error
     end).
Proof.
  unfold Gemini.sendToGeminiWithContext.
  destruct (Gemini.gemini_api_key env) as [key|] eqn:Hk; simpl; [|by left].
  destruct (JS.truthy key) eqn:Ht; simpl; [|by left].
  right. exists key. apply truthy_spec in Ht. split_and!; [done|done|].
  by destruct (Gemini.generateContent _ _ _ _ _) as [[?|]| |].
Qed.

(** ** Trimming *)

Section strip.
Variable ws : list ascii → bool.

Lemma Blank_app s1 s2 : JS.Blank ws s1 → JS.Blank ws s2 → JS.Blank ws (s1 ++ s2).
Proof.
  induction 1 as [|t s Ht _ IH]; intros H2; [done|].
  rewrite <- app_assoc. constructor; auto.
Qed.

Lemma Blank_token t : ws t = true → JS.Blank ws t.
Proof.
  intros Ht. rewrite <- (app_nil_r t). constructor; [done|constructor].
Qed.

Lemma strip_cons a s1 :
  JS.strip ws (a :: s1) =
  if ws [a] then JS.strip ws s1
  else match s1 with
    | [] => a :: s1
    | b :: s2 =>
      if ws [a; b] then JS.strip ws s2
      else match s2 with
        | [] => a :: s1
        | c :: s3 => if ws [a; b; c] then JS.strip ws s3 else a :: s1
        end
    end.
Proof. reflexivity. Qed.

(** What [strip] removes is blank, and the rest is what it returns. *)
Lemma strip_split s : ∃ pre, JS.Blank ws pre ∧ s = pre ++ JS.strip ws s.
Proof.
  assert (∀ n s, length s ≤ n →
            ∃ pre, JS.Blank ws pre ∧ s = pre ++ JS.strip ws s) as H;
    [|by eapply H].
  clear s. induction n as [|n IH]; intros s Hn.
  { destruct s; [|simpl in Hn; lia]. exists []. split; [constructor|done]. }
  assert (∀ t rest, ws t = true → length rest ≤ n →
            ∃ pre, JS.Blank ws pre ∧ t ++ rest = pre ++ JS.strip ws rest)
    as Hstep.
  { intros t rest Ht Hrest.
    destruct (IH rest Hrest) as (pre & Hpre & Heq).
    exists (t ++ pre). split; [by constructor|].
    by rewrite <- app_assoc, <- Heq. }
  destruct s as [|a s1]; [exists []; split; [constructor|done]|].
  rewrite strip_cons. destruct (ws [a]) eqn:Ea.
  { apply (Hstep [a]); [done|simpl in Hn; lia]. }
  destruct s1 as [|b s2]; [exists []; split; [constructor|done]|].
  destruct (ws [a; b]) eqn:Eab.
  { apply (Hstep [a; b]); [done|simpl in Hn; lia]. }
  destruct s2 as [|c s3]; [exists []; split; [constructor|done]|].
  destruct (ws [a; b; c]) eqn:Eabc.
  { apply (Hstep [a; b; c]); [done|simpl in Hn; lia]. }
  exists []. split; [constructor|done].
Qed.

Lemma strip_nil_Blank s : JS.strip ws s = [] → JS.Blank ws s.
Proof.
  intros H. destruct (strip_split s) as (pre & Hpre & Heq).
  rewrite H, app_nil_r in Heq. by subst.
Qed.

(** The recognised encodings take one to three bytes, and none of them
    begins another. *)
Hypothesis ws_length : ∀ t, ws t = true → 1 ≤ length t ≤ 3.
Hypothesis ws_prefix_free : ∀ t u, ws t = true → ws (t ++ u) = true → u = [].

Lemma strip_token t s : ws t = true → JS.strip ws (t ++ s) = JS.strip ws s.
Proof.
  intros Ht. pose proof (ws_length _ Ht) as Hlen.
  destruct t as [|a [|b [|c [|d t]]]]; simpl in Hlen; try lia.
  - simpl. by rewrite Ht.
  - assert (ws [a] = false) as Ea.
    { destruct (ws [a]) eqn:E; [|done].
      by pose proof (ws_prefix_free [a] [b] E Ht). }
    simpl. by rewrite Ea, Ht.
  - assert (ws [a] = false) as Ea.
    { destruct (ws [a]) eqn:E; [|done].
      by pose proof (ws_prefix_free [a] [b; c] E Ht). }
    assert (ws [a; b] = false) as Eab.
    { destruct (ws [a; b]) eqn:E; [|done].
      by pose proof (ws_prefix_free [a; b] [c] E Ht). }
    simpl. by rewrite Ea, Eab, Ht.
Qed.

Lemma Blank_strip_nil s : JS.Blank ws s → JS.strip ws s = [].
Proof.
  induction 1 as [|t s Ht _ IH]; [done|]. by rewrite strip_token.
Qed.

Lemma strip_nil_iff s : JS.strip ws s = [] ↔ JS.Blank ws s.
Proof. split; [apply strip_nil_Blank|apply Blank_strip_nil]. Qed.

Lemma Blank_strip s : JS.Blank ws (JS.strip ws s) ↔ JS.Blank ws s.
Proof.
  split.
  - intros H. destruct (strip_split s) as (pre & Hpre & Heq).
    rewrite Heq. by apply Blank_app.
  - intros H. rewrite Blank_strip_nil by done. constructor.
Qed.
End strip.

Lemma Blank_rev (ws ws' : list ascii → bool) s :
  (∀ t, ws t = true → ws' (rev t) = true) →
  JS.Blank ws s → JS.Blank ws' (rev s).
Proof.
  intros Hws. induction 1 as [|t s Ht _ IH]; [constructor|].
  rewrite rev_app_distr. apply Blank_app; [done|].
  apply Blank_token. auto.
Qed.

(** *** The table of white space encodings *)

Lemma whiteSpace_lengths :
  Forall (λ x : list N, 1 ≤ length x ≤ 3) JS.whiteSpace.
Proof. apply (bool_decide_unpack _). by vm_compute. Qed.

Lemma whiteSpace_prefix_free :
  Forall (λ x : list N,
            Forall (λ y, x `prefix_of` y → x = y) JS.whiteSpace)
         JS.whiteSpace.
Proof. apply (bool_decide_unpack _). by vm_compute. Qed.

Lemma whiteSpace_suffix_free :
  Forall (λ x : list N,
            Forall (λ y, x `suffix_of` y → x = y) JS.whiteSpace)
         JS.whiteSpace.
Proof. apply (bool_decide_unpack _). by vm_compute. Qed.

Lemma isWhiteSpace_spec t :
  JS.isWhiteSpace t = true ↔ N_of_ascii <$> t ∈ JS.whiteSpace.
Proof. unfold JS.isWhiteSpace. by rewrite bool_decide_eq_true. Qed.

Lemma isWhiteSpace_length t :
  JS.isWhiteSpace t = true → 1 ≤ length t ≤ 3.
Proof.
  intros Ht%isWhiteSpace_spec.
  pose proof whiteSpace_lengths as H. rewrite Forall_forall in H.
  apply H in Ht. by rewrite length_fmap in Ht.
Qed.

Lemma isWhiteSpace_prefix_free t u :
  JS.isWhiteSpace t = true → JS.isWhiteSpace (t ++ u) = true → u = [].
Proof.
  intros Ht%isWhiteSpace_spec Htu%isWhiteSpace_spec.
  pose proof whiteSpace_prefix_free as H. rewrite Forall_forall in H.
  specialize (H _ Ht). rewrite Forall_forall in H. specialize (H _ Htu).
  rewrite fmap_app in H.
  assert (N_of_ascii <$> u = []) as Hu.
  { apply (inj (app (N_of_ascii <$> t))). rewrite app_nil_r.
    symmetry. apply H. by apply prefix_app_r. }
  by apply fmap_nil_inv in Hu.
Qed.

Lemma isWhiteSpace_rev_length t :
  JS.isWhiteSpace (rev t) = true → 1 ≤ length t ≤ 3.
Proof. intros H%isWhiteSpace_length. by rewrite length_rev in H. Qed.

Lemma isWhiteSpace_suffix_free t u :
  JS.isWhiteSpace (rev t) = true → JS.isWhiteSpace (rev (t ++ u)) = true →
  u = [].
Proof.
  intros Ht%isWhiteSpace_spec Htu%isWhiteSpace_spec.
  pose proof whiteSpace_suffix_free as H. rewrite Forall_forall in H.
  specialize (H _ Ht). rewrite Forall_forall in H. specialize (H _ Htu).
  rewrite rev_app_distr, fmap_app in H.
  assert (N_of_ascii <$> rev u = []) as Hu.
  { apply (inj (λ l, l ++ (N_of_ascii <$> rev t))). simpl.
    symmetry. apply H. by apply suffix_app_r. }
  apply fmap_nil_inv in Hu. apply (f_equal (@rev ascii)) in Hu.
  by rewrite rev_involutive in Hu.
Qed.

(** [trim] leaves nothing exactly when the string is made of white space
    and line terminators only. *)
Lemma trim_empty_iff s : JS.trim s = "" ↔ JS.whiteSpaceOnly s.
Proof.
  unfold JS.trim, JS.whiteSpaceOnly, JS.trimEnd, JS.trimStart.
  set (l := Strings.String.list_ascii_of_string s).
  set (ws' := λ t, JS.isWhiteSpace (rev t)).
  assert (∀ x, Strings.String.string_of_list_ascii x = "" ↔ x = []) as Hnil.
  { intros [|??]; split; done. }
  rewrite Hnil.
  assert (∀ x : list ascii, rev x = [] ↔ x = []) as Hrev.
  { intros x. split; [|by intros ->].
    intros H. apply (f_equal (@rev ascii)) in H.
    by rewrite rev_involutive in H. }
  rewrite Hrev.
  rewrite (strip_nil_iff ws' isWhiteSpace_rev_length isWhiteSpace_suffix_free).
  rewrite <- (Blank_strip JS.isWhiteSpace isWhiteSpace_length
                isWhiteSpace_prefix_free l).
  split.
  - intros H. rewrite <- (rev_involutive (JS.strip _ l)).
    apply (Blank_rev ws'); [|done].
    intros t Ht. exact Ht.
  - apply Blank_rev. intros t Ht. unfold ws'. by rewrite rev_involutive.
Qed.

(** ** Submitting the chat input *)

(** In [App], submitting a blank edit text enqueues nothing. *)
Lemma submit_blank_is_noop r :
  JS.whiteSpaceOnly (editText r) → Wiring.submit r = Some (Return []).
Proof.
  intros Hblank%trim_empty_iff. unfold Wiring.submit, ChatInput.handleSubmit.
  change (ChatInput.input (Wiring.props r) "") with (editText r).
  by rewrite Hblank.
Qed.

(** C10: when the trimmed input is empty, which is exactly when the input
    consists of white space only, [handleSubmit] makes no call at all, so
    [onSend] never receives such an input; otherwise it calls [onSend]
    with the input as typed, untrimmed, and then resets the input to the
    empty string. *)
Theorem handleSubmit_guards_blank_input p localInput :
  let input := ChatInput.input p localInput in
  (JS.trim input = "" ↔ JS.whiteSpaceOnly input) ∧
  (JS.trim input = "" → ChatInput.handleSubmit p localInput = []) ∧
  (JS.trim input ≠ "" →
   ChatInput.handleSubmit p localInput
   = [ChatInput.onSend input; ChatInput.updateInput p ""]) ∧
  (∀ text, ChatInput.onSend text ∈ ChatInput.handleSubmit p localInput →
           text = input ∧ ¬ JS.whiteSpaceOnly text).
Proof.
  intros input. unfold ChatInput.handleSubmit. fold input.
  split_and!.
  - apply trim_empty_iff.
  - by intros ->.
  - intros Hne%truthy_spec. by rewrite Hne.
  - intros text. destruct (JS.truthy (JS.trim input)) eqn:Ht; simpl.
    + intros [[= ->]|Hin]%elem_of_cons.
      * split; [done|]. rewrite <- trim_empty_iff. by apply truthy_spec.
      * apply list_elem_of_singleton in Hin.
        unfold ChatInput.updateInput in Hin.
        by destruct (ChatInput.has_setInputText p).
    + by intros ?%elem_of_nil.
Qed.

(** *** The call as a promise *)

(** [Gemini.sendToGeminiWithContext] is the promise-level function where
    the read returns and the SDK call settles. *)
Lemma sendToGeminiWithContext_of_env env ms instruction modelName :
  GeminiCall.sendToGeminiWithContext (GeminiCall.of_env env) ms instruction
    modelName
  = GeminiCall.fulfilled
      (Gemini.sendToGeminiWithContext env ms instruction modelName).
Proof.
  unfold GeminiCall.sendToGeminiWithContext, Gemini.sendToGeminiWithContext.
  simpl. destruct (Gemini.gemini_api_key env) as [key|]; [|done].
  destruct (negb (JS.truthy key)); [done|].
  by destruct (Gemini.generateContent env _ _ _ _) as [[?|]| |].
Qed.

(** The read of the credential is outside the [try]: when it throws,
    nothing catches it and the promise is rejected. *)
Lemma sendToGeminiWithContext_rejects_when_read_throws w ms instruction
    modelName :
  GeminiCall.getItem w = GeminiCall.throws →
  GeminiCall.sendToGeminiWithContext w ms instruction modelName
  = GeminiCall.rejected.
Proof. unfold GeminiCall.sendToGeminiWithContext. by intros ->. Qed.

(** The four strings that stand for a failure are told apart: the three
    fixed ones differ from each other, and no captured message makes the
    prefixed one equal to any of them. *)
Lemma sentinels_pairwise_distinct :
  Gemini.missing_key ≠ Gemini.empty_response ∧
  Gemini.missing_key ≠ Gemini.unknown_error ∧
  Gemini.empty_response ≠ Gemini.unknown_error ∧
  ∀ message,
    Gemini.error_prefix +:+ message ≠ Gemini.missing_key ∧
    Gemini.error_prefix +:+ message ≠ Gemini.empty_response ∧
    Gemini.error_prefix +:+ message ≠ Gemini.unknown_error.
Proof.
  split_and!; [done|done|done|].
  intros message. split_and!; vm_compute; discriminate.
Qed.

(** C9, amended: once the stored credential has been read (the read
    returned a string or null), the call never raises past its boundary:
    its promise is never rejected; it stays pending exactly when the SDK
    call never settles; otherwise it is fulfilled with the reply text or
    with one of exactly four strings, told apart from each other: for a
    missing credential, for a response without text, for a thrown [Error]
    (the prefix followed by its message), and for any other thrown
    value. *)
Theorem sendToGeminiWithContext_never_raises_after_read
    w apiKey ms instruction modelName :
  GeminiCall.getItem w = GeminiCall.returns apiKey →
  let promise :=
    GeminiCall.sendToGeminiWithContext w ms instruction modelName in
  let contents :=
    (λ msg, {| Gemini.content_role := role msg;
               Gemini.parts := [text msg] |}) <$> ms in
  promise ≠ GeminiCall.rejected ∧
  (promise = GeminiCall.pending ↔
   ∃ key, apiKey = Some key ∧ key ≠ "" ∧
          GeminiCall.generateContent w key modelName contents instruction
          = GeminiCall.never_settles) ∧
  ((JS.truthy_opt apiKey = false ∧
    promise = GeminiCall.fulfilled Gemini.missing_key) ∨
   (∃ key,
      apiKey = Some key ∧ key ≠ "" ∧
      match GeminiCall.generateContent w key modelName contents
              instruction with
      | GeminiCall.never_settles => promise = GeminiCall.pending
      | GeminiCall.settles (Gemini.resolves (Some reply)) =>
        promise = GeminiCall.fulfilled reply
      | GeminiCall.settles (Gemini.resolves None) =>
        promise = GeminiCall.fulfilled Gemini.empty_response
      | GeminiCall.settles (Gemini.throws_Error message) =>
        promise = GeminiCall.fulfilled (Gemini.error_prefix +:+ message)
      | GeminiCall.settles Gemini.throws_other =>
        promise = GeminiCall.fulfilled Gemini.unknown_error
      end)) ∧
  (Gemini.missing_key ≠ Gemini.empty_response ∧
   Gemini.missing_key ≠ Gemini.unknown_error ∧
   Gemini.empty_response ≠ Gemini.unknown_error ∧
   ∀ message,
     Gemini.error_prefix +:+ message ≠ Gemini.missing_key ∧
     Gemini.error_prefix +:+ message ≠ Gemini.empty_response ∧
     Gemini.error_prefix +:+ message ≠ Gemini.unknown_error).
Proof.
  intros Hread promise contents. subst promise.
  unfold GeminiCall.sendToGeminiWithContext. rewrite Hread. fold contents.
  split; [|split; [|split; [|exact sentinels_pairwise_distinct]]].
  - destruct apiKey as [key|]; [|done].
    destruct (negb (JS.truthy key)); [done|].
    by destruct (GeminiCall.generateContent w key modelName contents
                   instruction) as [[[?|]| |]|].
  - destruct apiKey as [key|]; [|split; [done|by intros (? & ? & _)]].
    destruct (JS.truthy key) eqn:Ht; simpl.
    + apply truthy_spec in Ht. split.
      * intros Hp. exists key. split_and!; [done|done|].
        by destruct (GeminiCall.generateContent w key modelName contents
                       instruction) as [[[?|]| |]|].
      * intros (key' & [= <-] & _ & ->). done.
    + split; [done|]. intros (key' & [= <-] & Hne%truthy_spec & _).
      congruence.
  - destruct apiKey as [key|]; [|by left].
    destruct (JS.truthy key) eqn:Ht; simpl; [|by left].
    right. exists key. apply truthy_spec in Ht. split_and!; [done|done|].
    by destruct (GeminiCall.generateContent w key modelName contents
                   instruction) as [[[?|]| |]|].
Qed.

(** * The theorems at the sample state *)

Lemma handleResend_truncates_and_resends_witness :
  JS.truthy_opt (currentConversationId Sample.state) = true ∧
  messages
    (completed Sample.env (handleResend Sample.state 2) Sample.state)
  = [userMessage "hi"; modelMessage "yo"; userMessage "q2";
     modelMessage "pong"].
Proof.
  split; [reflexivity|].
  pose proof (handleResend_truncates_and_resends
                Sample.env Sample.state 2) as H.
  vm_compute in H. destruct (H eq_refl) as (_ & _ & H3). exact H3.
Defined.

Lemma handleDeleteConversation_current_resolves_witness :
  currentConversationId Sample.state = Some "a" ∧
  ∃ c, currentConversation
         (run (λ r, handleDeleteConversation r "u" "a") Sample.state)
       = Some c ∧ c = Sample.other.
Proof.
  split; [reflexivity|].
  destruct (handleDeleteConversation_current_resolves
              Sample.state "u" "a" eq_refl) as (c & Hc & _ & _ & Hfirst).
  by exists c.
Defined.


Lemma edit_model_message_changes_only_its_text_witness :
  currentConversation Sample.state = Some Sample.greeting ∧
  Conversation.id Sample.greeting ≠ "" ∧
  editIndex Sample.state = Some 1 ∧
  editRole Sample.state = Some model ∧
  messages Sample.state !! 1 = Some (modelMessage "yo") ∧
  ∃ us, onSend Sample.state "yes" = Some (Return us) ∧
        messages (commit us Sample.state)
        = [userMessage "hi"; modelMessage "yes"; userMessage "q2"].
Proof.
  assert (Conversation.id Sample.greeting ≠ "") as Hid by discriminate.
  split_and!; [reflexivity|exact Hid|reflexivity..|].
  destruct (edit_model_message_changes_only_its_text Sample.state
              Sample.greeting 1 (modelMessage "yo") "yes"
              eq_refl Hid eq_refl eq_refl eq_refl eq_refl)
    as (us & Hus & Hms & _).
  exists us. split; [exact Hus|exact Hms].
Defined.

Lemma handleAddSystemInstructionPreset_upsert_witness :
  currentConversation Sample.state = Some Sample.greeting ∧
  NoDup (SystemInstructionPreset.names
           (systemInstructionPresets
              (run (λ r, handleAddSystemInstructionPreset r "short")
                 Sample.state))).
Proof.
  split; [reflexivity|].
  destruct (handleAddSystemInstructionPreset_upsert Sample.state
              Sample.greeting "short" eq_refl) as (_ & _ & Hnd).
  apply Hnd. apply NoDup_singleton.
Defined.

Lemma handleDeleteSystemInstructionPreset_clears_on_equal_text_witness :
  currentConversation Sample.state = Some Sample.greeting ∧
  JS.find (λ p, SystemInstructionPreset.name p = "short")
          (systemInstructionPresets Sample.state) = Some Sample.brief ∧
  systemInstruction
    (run (λ r, handleDeleteSystemInstructionPreset r "short") Sample.state)
  = "".
Proof.
  split_and!; [reflexivity..|].
  destruct (handleDeleteSystemInstructionPreset_clears_on_equal_text
              Sample.state Sample.greeting Sample.brief "short"
              eq_refl eq_refl) as (_ & _ & Heq & _).
  apply Heq; [reflexivity|discriminate].
Defined.

Lemma handleSubmit_guards_blank_input_witness :
  JS.trim "  " = "" ∧
  ChatInput.handleSubmit Sample.standalone "  " = [] ∧
  JS.trim " hi " ≠ "" ∧
  ChatInput.handleSubmit Sample.standalone " hi "
  = [ChatInput.onSend " hi "; ChatInput.setLocalInput ""].
Proof.
  assert (JS.trim " hi " ≠ "") as Hne by (vm_compute; discriminate).
  split_and!; [reflexivity| |exact Hne|].
  - destruct (handleSubmit_guards_blank_input Sample.standalone "  ")
      as (_ & Hblank & _).
    apply Hblank. reflexivity.
  - destruct (handleSubmit_guards_blank_input Sample.standalone " hi ")
      as (_ & _ & Hsend & _).
    apply Hsend. exact Hne.
Defined.

Lemma handleSwitchConversation_sets_pointer_witness :
  Sample.other ∈ conversations Sample.state ∧
  Conversation.id Sample.other = "b" ∧
  ∃ c, currentConversation
         (run (λ r, handleSwitchConversation r "b") Sample.state) = Some c ∧
       Conversation.id c = "b".
Proof.
  assert (Sample.other ∈ conversations Sample.state) as Hin
    by (right; left).
  split_and!; [exact Hin|reflexivity|].
  destruct (handleSwitchConversation_sets_pointer Sample.state "b")
    as (_ & _ & _ & Hknown & _).
  destruct (Hknown Sample.other Hin eq_refl) as (c & Hc & Hid & _).
  exists c. split; [exact Hc|exact Hid].
Defined.

(** * Further properties of the handlers *)

(** ** The store under [updateConversation], removal and creation *)

Lemma ids_apply_updateConversation s id (p : Partial.t) :
  Partial.id p = None →
  Store.ids (conversations (apply s (updateConversation id p)))
  = Store.ids (conversations s).
Proof.
  intros Hp. unfold Store.ids. simpl. rewrite <- list_fmap_compose.
  apply list_fmap_ext. intros i c _. simpl. by apply updated_id.
Qed.

Lemma updateConversation_absent s id (p : Partial.t) :
  id ∉ Store.ids (conversations s) →
  conversations (apply s (updateConversation id p)) = conversations s.
Proof.
  intros Hid. simpl. rewrite <- (list_fmap_id (conversations s)) at 2.
  apply list_fmap_ext. intros i c Hc. rewrite decide_False; [done|].
  intros <-. apply Hid. unfold Store.ids. apply list_elem_of_fmap.
  exists c. split; [done|]. by eapply list_elem_of_lookup_2.
Qed.

Lemma updateConversation_lookup s id (p : Partial.t) j c :
  conversations s !! j = Some c →
  conversations (apply s (updateConversation id p)) !! j
  = Some (if decide (Conversation.id c = id) then Partial.spread c p else c).
Proof. intros Hc. simpl. by rewrite list_lookup_fmap, Hc. Qed.

Lemma ids_filter_NoDup (P : Conversation.t → Prop) `{∀ c, Decision (P c)} l :
  NoDup (Store.ids l) → NoDup (Store.ids (filter P l)).
Proof.
  intros Hnd. eapply sublist_NoDup; [exact Hnd|].
  unfold Store.ids. apply fmap_sublist, sublist_filter.
Qed.

Lemma ids_filter_subseteq (P : Conversation.t → Prop) `{∀ c, Decision (P c)}
    l x :
  x ∈ Store.ids (filter P l) → x ∈ Store.ids l.
Proof.
  unfold Store.ids. intros (c & -> & Hc)%list_elem_of_fmap.
  apply list_elem_of_filter in Hc as [_ Hc].
  apply list_elem_of_fmap. eauto.
Qed.

Lemma ids_snoc_NoDup l c :
  NoDup (Store.ids l) → Conversation.id c ∉ Store.ids l →
  NoDup (Store.ids (l ++ [c])).
Proof.
  intros Hnd Hfresh. unfold Store.ids in *. rewrite fmap_app.
  apply NoDup_app. split_and!; [done| |apply NoDup_singleton].
  intros x Hx ->%list_elem_of_singleton. done.
Qed.

Lemma find_None_iff l cid :
  JS.find (λ c, Conversation.id c = cid) l = None ↔ cid ∉ Store.ids l.
Proof.
  unfold JS.find, Store.ids.
  destruct (list_find _ l) as [[i c]|] eqn:E; simpl.
  - apply list_find_Some in E as (Hi & <- & _). split; [done|].
    intros Hnot. exfalso. apply Hnot. apply list_elem_of_fmap.
    exists c. split; [done|]. by eapply list_elem_of_lookup_2.
  - split; [|done]. intros _.
    apply list_find_None in E. rewrite Forall_forall in E.
    intros (c & -> & Hc)%list_elem_of_fmap. by eapply E.
Qed.

Lemma find_is_Some_iff l cid :
  is_Some (JS.find (λ c, Conversation.id c = cid) l) ↔ cid ∈ Store.ids l.
Proof.
  rewrite <- not_eq_None_Some, find_None_iff.
  split; [apply dec_stable|by intros ??].
Qed.

Lemma find_filter_ne l cid d :
  cid ≠ d →
  JS.find (λ c, Conversation.id c = cid)
          (filter (λ c, Conversation.id c ≠ d) l)
  = JS.find (λ c, Conversation.id c = cid) l.
Proof.
  intros Hne. induction l as [|c l IH]; [done|].
  rewrite filter_cons. case_decide as Hc.
  - rewrite !find_cons, IH. done.
  - rewrite find_cons, IH. rewrite decide_False; [done|]. congruence.
Qed.

Lemma find_app_l l1 l2 cid c :
  JS.find (λ c, Conversation.id c = cid) l1 = Some c →
  JS.find (λ c, Conversation.id c = cid) (l1 ++ l2) = Some c.
Proof.
  unfold JS.find. destruct (list_find _ l1) as [[i x]|] eqn:E; [|done].
  intros [= <-]. by erewrite list_find_app_l.
Qed.

Lemma find_app_is_Some l c cid :
  Conversation.id c = cid →
  is_Some (JS.find (λ c, Conversation.id c = cid) (l ++ [c])).
Proof.
  intros Hc. apply find_is_Some_iff. unfold Store.ids.
  rewrite fmap_app. apply elem_of_app. right. simpl. rewrite Hc. by left.
Qed.

(** X1: deleting a conversation that is not the current one removes every
    conversation of that id and nothing else: the pointer and the current
    conversation stay as they are. *)
Theorem handleDeleteConversation_other_keeps_current r newId id :
  currentConversationId r ≠ Some id →
  let s := run (λ r, handleDeleteConversation r newId id) r in
  conversations s = filter (λ c, Conversation.id c ≠ id) (conversations r) ∧
  (id ∉ Store.ids (conversations s)) ∧
  currentConversationId s = currentConversationId r ∧
  currentConversation s = currentConversation r ∧
  messages s = messages r.
Proof.
  intros Hcur s. subst s. unfold run, handleDeleteConversation.
  rewrite decide_False by done. rewrite commit_cons, commit_nil.
  assert (currentConversation
            (apply r (setConversations
                        (filter (λ c, Conversation.id c ≠ id))))
          = currentConversation r) as Hsame.
  { unfold currentConversation. simpl.
    destruct (currentConversationId r) as [cid|]; [|done].
    apply find_filter_ne. by intros ->. }
  split_and!; [done| |done|done|].
  - simpl. unfold Store.ids. intros (c & -> & Hc)%list_elem_of_fmap.
    by apply list_elem_of_filter in Hc as [? _].
  - unfold messages. by rewrite Hsame.
Qed.

(** X2: what the menu can ask of [App] never makes two conversations share an
    id, as long as [uuidv4()] returns an id that is not in the store. *)
Theorem menu_calls_keep_ids_distinct r newId (c : Menu.Call) :
  Store.unique_ids r →
  newId ∉ Store.ids (conversations r) →
  Store.unique_ids (commit (MenuWiring.dispatch r newId c) r).
Proof.
  unfold Store.unique_ids. intros Hnd Hfresh.
  assert (∀ id p, Partial.id p = None →
            NoDup (Store.ids (conversations
                                (commit [updateConversation id p] r))))
    as Hupd.
  { intros id p Hp. rewrite commit_cons, commit_nil.
    by rewrite ids_apply_updateConversation. }
  destruct c; cbn [MenuWiring.dispatch]; try done.
  - unfold handleNewChat. rewrite !commit_cons, commit_nil. simpl.
    by apply ids_snoc_NoDup.
  - unfold handleClearChat.
    destruct (currentConversationId r) as [cid|]; [|done].
    destruct (JS.truthy cid); [|done]. by apply Hupd.
  - unfold handleDeleteConversation. rewrite commit_cons. case_decide.
    + destruct (filter _ (conversations r)) as [|c0 rest] eqn:Hrem.
      * unfold handleNewChat. rewrite !commit_cons, commit_nil. simpl.
        rewrite Hrem. simpl. apply NoDup_singleton.
      * rewrite commit_cons, commit_nil. simpl. by apply ids_filter_NoDup.
    + rewrite commit_nil. simpl. by apply ids_filter_NoDup.
  - by apply Hupd.
  - unfold handleSystemInstructionChange.
    destruct (currentConversationId r) as [cid|]; [|done].
    destruct (JS.truthy cid); [|done]. by apply Hupd.
  - unfold handleAddSystemInstructionPreset.
    by destruct (currentConversation r).
  - unfold handleDeleteSystemInstructionPreset. rewrite commit_cons.
    destruct (JS.find _ (systemInstructionPresets r)) as [p|]; [|done].
    case_decide; [|done]. unfold handleSystemInstructionChange.
    destruct (currentConversationId r) as [cid|]; [|done].
    destruct (JS.truthy cid); [|done].
    rewrite commit_cons, commit_nil.
    by rewrite ids_apply_updateConversation.
Qed.

Lemma current_resolves_update s id (p : Partial.t) :
  Partial.id p = None →
  Store.current_resolves s →
  Store.current_resolves (apply s (updateConversation id p)).
Proof.
  unfold Store.current_resolves, currentConversation. intros Hp. simpl.
  destruct (currentConversationId s) as [cid|]; [|done].
  rewrite find_fmap by (intros; by apply updated_id).
  by rewrite fmap_is_Some.
Qed.

(** X3: what the menu can ask of [App] never leaves the current pointer
    dangling, provided a switch targets a conversation of the store (the
    menu lists no other). *)
Theorem menu_calls_keep_current_resolving r newId (c : Menu.Call) :
  Store.current_resolves r →
  (∀ id, c = Menu.onSwitchConversation id →
         id ∈ Store.ids (conversations r)) →
  Store.current_resolves (commit (MenuWiring.dispatch r newId c) r).
Proof.
  intros Hres Hswitch.
  assert (∀ id p, Partial.id p = None →
            Store.current_resolves (commit [updateConversation id p] r))
    as Hupd.
  { intros id p Hp. rewrite commit_cons, commit_nil.
    by apply current_resolves_update. }
  destruct c; cbn [MenuWiring.dispatch]; try done.
  - unfold handleNewChat. rewrite !commit_cons, commit_nil.
    unfold Store.current_resolves, currentConversation. simpl.
    by apply find_app_is_Some.
  - unfold handleSwitchConversation. rewrite commit_cons, commit_nil.
    unfold Store.current_resolves, currentConversation. simpl.
    apply find_is_Some_iff. by apply Hswitch.
  - unfold handleClearChat.
    destruct (currentConversationId r) as [cid|]; [|done].
    destruct (JS.truthy cid); [|done]. by apply Hupd.
  - unfold handleDeleteConversation. rewrite commit_cons.
    unfold Store.current_resolves in *. case_decide as Hcur.
    + destruct (filter _ (conversations r)) as [|c0 rest] eqn:Hrem.
      * unfold handleNewChat. rewrite !commit_cons, commit_nil.
        unfold currentConversation. simpl. by apply find_app_is_Some.
      * rewrite commit_cons, commit_nil.
        unfold currentConversation. simpl. rewrite Hrem, find_cons.
        by rewrite decide_True.
    + rewrite commit_nil. unfold currentConversation in *. simpl.
      destruct (currentConversationId r) as [cid|]; [|done].
      rewrite find_filter_ne; [done|]. by intros ->.
  - by apply Hupd.
  - unfold handleSystemInstructionChange.
    destruct (currentConversationId r) as [cid|]; [|done].
    destruct (JS.truthy cid); [|done]. by apply Hupd.
  - unfold handleAddSystemInstructionPreset.
    by destruct (currentConversation r).
  - unfold handleDeleteSystemInstructionPreset. rewrite commit_cons.
    destruct (JS.find _ (systemInstructionPresets r)) as [p|]; [|done].
    case_decide; [|done]. unfold handleSystemInstructionChange.
    destruct (currentConversationId r) as [cid|]; [|done].
    destruct (JS.truthy cid); [|done].
    rewrite commit_cons, commit_nil.
    by apply (current_resolves_update
                (apply r (setSystemInstructionPresets _))).
Qed.

(** ** Clearing the chat *)

(** X4: [handleClearChat] empties the messages of the current conversation
    and touches nothing else: its name and instruction, the ids, and every
    conversation of another id are as before. *)
Theorem handleClearChat_empties_current_only r c :
  currentConversation r = Some c →
  Conversation.id c ≠ "" →
  let s := run handleClearChat r in
  currentConversation s = Some (Store.with_messages c []) ∧
  messages s = [] ∧
  systemInstruction s = systemInstruction r ∧
  currentConversationId s = currentConversationId r ∧
  Store.ids (conversations s) = Store.ids (conversations r) ∧
  (∀ j c', conversations r !! j = Some c' →
           Conversation.id c' ≠ Conversation.id c →
           conversations s !! j = Some c').
Proof.
  intros Hc Hid s. subst s. unfold run, handleClearChat.
  rewrite (currentConversation_Some_id _ _ Hc).
  apply truthy_spec in Hid as ->. rewrite commit_cons, commit_nil.
  assert (currentConversation
            (apply r (updateConversation (Conversation.id c)
                        (Partial.of_messages [])))
          = Some (Store.with_messages c [])) as Hcur
    by exact (currentConversation_update r _ (Partial.of_messages []) c
                eq_refl Hc eq_refl).
  split_and!;
    [exact Hcur| | |exact (currentConversation_Some_id _ _ Hc)| |].
  - unfold messages. by rewrite Hcur.
  - unfold systemInstruction. by rewrite Hcur, Hc.
  - by apply ids_apply_updateConversation.
  - intros j c' Hj Hne. erewrite updateConversation_lookup by done.
    by rewrite decide_False.
Qed.

(** ** Trimming twice *)

Section strip_fixed.
Variable ws : list ascii → bool.

Lemma strip_length s : length (JS.strip ws s) ≤ length s.
Proof.
  destruct (strip_split ws s) as (pre & _ & Heq).
  rewrite Heq at 2. rewrite length_app. lia.
Qed.

Lemma strip_idem s : JS.strip ws (JS.strip ws s) = JS.strip ws s.
Proof.
  assert (∀ n s, length s ≤ n →
            JS.strip ws (JS.strip ws s) = JS.strip ws s) as H;
    [|by eapply H].
  clear s. induction n as [|n IH]; intros s Hn.
  { by destruct s; [|simpl in Hn; lia]. }
  destruct s as [|a s1]; [done|].
  rewrite (strip_cons ws a s1). destruct (ws [a]) eqn:Ea.
  { apply IH. simpl in Hn. lia. }
  destruct s1 as [|b s2].
  { by rewrite strip_cons, Ea. }
  destruct (ws [a; b]) eqn:Eab.
  { apply IH. simpl in Hn. lia. }
  destruct s2 as [|c s3].
  { by rewrite strip_cons, Ea, Eab. }
  destruct (ws [a; b; c]) eqn:Eabc.
  { apply IH. simpl in Hn. lia. }
  by rewrite strip_cons, Ea, Eab, Eabc.
Qed.

(** A string that [strip] leaves alone begins with no recognised
    encoding, and so does each of its prefixes. *)
Lemma strip_fixed_prefix s p :
  JS.strip ws s = s → p `prefix_of` s → JS.strip ws p = p.
Proof.
  intros Hs [k ->].
  destruct p as [|a p1]; [done|].
  pose proof (strip_length (p1 ++ k)) as L1. cbn [app] in L1.
  assert (ws [a] = false) as Ea.
  { destruct (ws [a]) eqn:E; [|done]. exfalso.
    cbn [app] in Hs. rewrite strip_cons, E in Hs.
    apply (f_equal length) in Hs. simpl in Hs. lia. }
  rewrite strip_cons, Ea. destruct p1 as [|b p2]; [done|].
  pose proof (strip_length (p2 ++ k)) as L2. cbn [app] in L2.
  assert (ws [a; b] = false) as Eab.
  { destruct (ws [a; b]) eqn:E; [|done]. exfalso.
    cbn [app] in Hs. rewrite strip_cons, Ea, E in Hs.
    apply (f_equal length) in Hs. simpl in Hs. lia. }
  rewrite Eab. destruct p2 as [|c p3]; [done|].
  pose proof (strip_length (p3 ++ k)) as L3.
  assert (ws [a; b; c] = false) as Eabc.
  { destruct (ws [a; b; c]) eqn:E; [|done]. exfalso.
    cbn [app] in Hs. rewrite strip_cons, Ea, Eab, E in Hs.
    apply (f_equal length) in Hs. simpl in Hs. lia. }
  by rewrite Eabc.
Qed.
End strip_fixed.

Lemma trimEnd_prefix u : JS.trimEnd u `prefix_of` u.
Proof.
  unfold JS.trimEnd.
  destruct (strip_split (λ t, JS.isWhiteSpace (rev t)) (rev u))
    as (pre & _ & Heq).
  exists (rev pre). apply (f_equal (@rev ascii)) in Heq.
  by rewrite rev_involutive, rev_app_distr in Heq.
Qed.

Lemma trimEnd_idem u : JS.trimEnd (JS.trimEnd u) = JS.trimEnd u.
Proof. unfold JS.trimEnd. by rewrite rev_involutive, strip_idem. Qed.

(** [trim] removes all there is to remove: the result is its own trim. *)
Lemma trim_idempotent s : JS.trim (JS.trim s) = JS.trim s.
Proof.
  unfold JS.trim.
  rewrite Strings.String.list_ascii_of_string_of_list_ascii.
  set (u := JS.trimStart (Strings.String.list_ascii_of_string s)).
  assert (JS.trimStart (JS.trimEnd u) = JS.trimEnd u) as ->.
  { apply (strip_fixed_prefix _ u); [apply strip_idem|apply trimEnd_prefix]. }
  by rewrite trimEnd_idem.
Qed.

(** ** Renaming through the menu *)

Lemma after_nil r newId : MenuWiring.after r newId [] = r.
Proof. reflexivity. Qed.

Lemma after_cons r newId (c : Menu.Call) cs :
  MenuWiring.after r newId (c :: cs)
  = commit (concat (MenuWiring.dispatch r newId <$> cs))
           (commit (MenuWiring.dispatch r newId c) r).
Proof. unfold MenuWiring.after. rewrite fmap_cons. apply commit_app. Qed.

Lemma after_single r newId (c : Menu.Call) :
  MenuWiring.after r newId [c] = commit (MenuWiring.dispatch r newId c) r.
Proof. by rewrite after_cons. Qed.

Lemma after_local_only r newId (cs : list Menu.Call) :
  Forall (λ c, MenuWiring.dispatch r newId c = []) cs →
  MenuWiring.after r newId cs = r.
Proof.
  unfold MenuWiring.after. induction 1 as [|c cs Hc _ IH]; [done|].
  rewrite fmap_cons. simpl. by rewrite Hc.
Qed.

(** X5: committing a rename from the menu always leaves rename mode.  A blank
    name changes nothing in [App]; any other name is stored trimmed, so
    it is not empty and has no white space left to trim, and the rename
    touches only the name of the conversations that have the id. *)
Theorem menu_rename_stores_trimmed_name r newId (m : Menu.State) id c :
  Menu.editingId m = Some id →
  id ≠ "" →
  JS.find (λ c, Conversation.id c = id) (conversations r) = Some c →
  let calls := Menu.handleRename m in
  let s := MenuWiring.after r newId calls in
  let m' := MenuWiring.after_local m calls in
  Menu.editingId m' = None ∧
  Menu.editingName m' = "" ∧
  (JS.whiteSpaceOnly (Menu.editingName m) → s = r) ∧
  (¬ JS.whiteSpaceOnly (Menu.editingName m) →
   let newName := JS.trim (Menu.editingName m) in
   newName ≠ "" ∧
   JS.trim newName = newName ∧
   JS.find (λ c, Conversation.id c = id) (conversations s)
   = Some (Store.with_name c newName) ∧
   Store.ids (conversations s) = Store.ids (conversations r) ∧
   currentConversationId s = currentConversationId r ∧
   (∀ j c', conversations r !! j = Some c' → Conversation.id c' ≠ id →
            conversations s !! j = Some c')).
Proof.
  intros Hm Hid Hc calls s m'. subst calls s m'. unfold Menu.handleRename.
  rewrite Hm. apply truthy_spec in Hid as Ht. rewrite Ht.
  destruct (JS.truthy (JS.trim (Menu.editingName m))) eqn:Hname;
    cbn [andb app].
  - split_and!; [done|done| |].
    + intros Hblank%trim_empty_iff. apply truthy_spec in Hname. done.
    + intros _. apply truthy_spec in Hname.
      set (newName := JS.trim (Menu.editingName m)) in *.
      assert (MenuWiring.after r newId
                [Menu.onRenameConversation id newName;
                 Menu.setEditingId None; Menu.setEditingName ""]
              = commit [updateConversation id (Partial.of_name newName)] r)
        as -> by reflexivity.
      rewrite commit_cons, commit_nil.
      split_and!; [done|apply trim_idempotent| | |done|].
      * simpl. rewrite find_fmap by (intros; by apply updated_id).
        rewrite Hc. simpl. apply find_Some_id in Hc as [Hcid _].
        by rewrite decide_True.
      * by apply ids_apply_updateConversation.
      * intros j c' Hj Hne. erewrite updateConversation_lookup by done.
        by rewrite decide_False.
  - split_and!; [done|done| |].
    + intros _. apply after_local_only. by repeat constructor.
    + intros Hnot. exfalso. apply Hnot. apply trim_empty_iff.
      destruct (decide (JS.trim (Menu.editingName m) = "")) as [|Hne];
        [done|].
      apply truthy_spec in Hne. congruence.
Qed.

(** ** Presets *)

Lemma list_find_insert_first {A} (P : A → Prop) `{∀ x, Decision (P x)}
    (l : list A) i x y :
  list_find P l = Some (i, x) → P y →
  list_find P (<[i := y]> l) = Some (i, y).
Proof.
  intros (Hi & Hx & Hfirst)%list_find_Some Hy.
  pose proof (lookup_lt_Some _ _ _ Hi) as Hlt.
  apply list_find_Some. split_and!.
  - by apply list_lookup_insert_eq.
  - done.
  - intros j z Hj Hlt'. rewrite list_lookup_insert_ne in Hj by lia.
    by eapply Hfirst.
Qed.

Lemma find_preset_snoc name (ps : list SystemInstructionPreset.t) q :
  list_find (λ p, SystemInstructionPreset.name p = name) ps = None →
  SystemInstructionPreset.name q = name →
  JS.find (λ p, SystemInstructionPreset.name p = name) (ps ++ [q]) = Some q.
Proof.
  intros Hnone Hq. unfold JS.find. rewrite list_find_app_r by done.
  simpl. rewrite decide_True by done. done.
Qed.

(** X6: saving a preset and looking its name up gives the instruction of the
    current conversation, whether the name was new or taken. *)
Theorem saved_preset_is_found r c name :
  currentConversation r = Some c →
  let s := run (λ r, handleAddSystemInstructionPreset r name) r in
  JS.find (λ p, SystemInstructionPreset.name p = name)
          (systemInstructionPresets s)
  = Some {| SystemInstructionPreset.name := name;
            SystemInstructionPreset.instruction :=
              Conversation.systemInstruction c |}.
Proof.
  intros Hc s. subst s. unfold run, handleAddSystemInstructionPreset.
  rewrite Hc, commit_cons, commit_nil. simpl. unfold JS.findIndex.
  destruct (list_find _ (systemInstructionPresets r)) as [[i old]|] eqn:E;
    simpl.
  - unfold JS.find. by erewrite list_find_insert_first.
  - by apply find_preset_snoc.
Qed.

Lemma filter_preset_snoc name (ps : list SystemInstructionPreset.t) q :
  name ∉ SystemInstructionPreset.names ps →
  SystemInstructionPreset.name q = name →
  filter (λ p, SystemInstructionPreset.name p ≠ name) (ps ++ [q]) = ps.
Proof.
  intros Hnot Hq. rewrite filter_app.
  rewrite (filter_singleton_False _ q [] ) by (by intros ?).
  rewrite app_nil_r. induction ps as [|p ps IH]; [done|].
  unfold SystemInstructionPreset.names in *. rewrite fmap_cons in Hnot.
  apply not_elem_of_cons in Hnot as [Hp Hps].
  rewrite filter_cons, decide_True by done. by rewrite IH.
Qed.

(** X7: saving a preset and deleting it again always clears the instruction
    of the current conversation, since the saved text is that very
    instruction; if the name was new, the preset list is back to what it
    was.  The current id is assumed to be a non-empty string. *)
Theorem save_then_delete_preset_clears_instruction r c name :
  currentConversation r = Some c →
  Conversation.id c ≠ "" →
  let s1 := run (λ r, handleAddSystemInstructionPreset r name) r in
  let s2 := run (λ r, handleDeleteSystemInstructionPreset r name) s1 in
  systemInstruction s2 = "" ∧
  messages s2 = messages r ∧
  (name ∉ SystemInstructionPreset.names (systemInstructionPresets s2)) ∧
  (name ∉ SystemInstructionPreset.names (systemInstructionPresets r) →
   systemInstructionPresets s2 = systemInstructionPresets r).
Proof.
  intros Hc Hid s1 s2.
  pose proof (saved_preset_is_found r c name Hc) as Hfound. fold s1 in Hfound.
  assert (currentConversation s1 = Some c) as Hc1.
  { subst s1. unfold run, handleAddSystemInstructionPreset. by rewrite Hc. }
  assert (systemInstructionPresets s1
          = match JS.findIndex
                    (λ p, SystemInstructionPreset.name p = name)
                    (systemInstructionPresets r) with
            | Some i =>
              <[i := {| SystemInstructionPreset.name := name;
                        SystemInstructionPreset.instruction :=
                          Conversation.systemInstruction c |}]>
                (systemInstructionPresets r)
            | None =>
              systemInstructionPresets r ++
              [{| SystemInstructionPreset.name := name;
                  SystemInstructionPreset.instruction :=
                    Conversation.systemInstruction c |}]
            end) as Hps1.
  { subst s1. unfold run, handleAddSystemInstructionPreset. by rewrite Hc. }
  subst s2. unfold run, handleDeleteSystemInstructionPreset.
  rewrite Hfound, Hc1. simpl fmap. rewrite decide_True by done.
  unfold handleSystemInstructionChange.
  rewrite (currentConversation_Some_id _ _ Hc1).
  apply truthy_spec in Hid as ->. rewrite !commit_cons, commit_nil.
  destruct (systemInstruction_update
              (apply s1 (setSystemInstructionPresets
                           (filter (λ p, SystemInstructionPreset.name p
                                         ≠ name))))
              (Conversation.id c) "" c Hc1 eq_refl) as [H1 H2].
  split_and!; [exact H1| | |].
  - rewrite H2. change (messages s1 = messages r).
    unfold messages. by rewrite Hc1, Hc.
  - simpl. unfold SystemInstructionPreset.names.
    intros (q & -> & Hq)%list_elem_of_fmap.
    by apply list_elem_of_filter in Hq as [? _].
  - intros Hnew. simpl. rewrite Hps1. unfold JS.findIndex.
    apply find_preset_None in Hnew as Hnone. rewrite Hnone. simpl.
    by apply filter_preset_snoc.
Qed.

Lemma find_Some_elem {A} (P : A → Prop) `{∀ x, Decision (P x)}
    (l : list A) x :
  JS.find P l = Some x → x ∈ l ∧ P x.
Proof.
  unfold JS.find. destruct (list_find P l) as [[i y]|] eqn:E; [|done].
  intros [= <-]. apply list_find_Some in E as (Hi & Hy & _).
  split; [by eapply list_elem_of_lookup_2|done].
Qed.

Lemma find_elem_is_Some {A} (P : A → Prop) `{∀ x, Decision (P x)}
    (l : list A) x :
  x ∈ l → P x → is_Some (JS.find P l).
Proof.
  intros Hx HP. unfold JS.find.
  destruct (list_find_elem_of P l x Hx HP) as [[i y] ->]. by eexists.
Qed.

(** X8: choosing a preset in the drop-down makes its instruction the
    instruction of the current conversation and leaves messages and
    presets alone; when no other preset carries the same text, the
    drop-down then shows the chosen name again.  The current id is
    assumed to be a non-empty string. *)
Theorem preset_selection_round_trip r newId c name p :
  currentConversation r = Some c →
  Conversation.id c ≠ "" →
  JS.find (λ q, SystemInstructionPreset.name q = name)
          (systemInstructionPresets r) = Some p →
  let calls := Menu.handlePresetChange (MenuWiring.props r) name in
  let s := MenuWiring.after r newId calls in
  systemInstruction s = SystemInstructionPreset.instruction p ∧
  messages s = messages r ∧
  systemInstructionPresets s = systemInstructionPresets r ∧
  ((∀ q, q ∈ systemInstructionPresets r →
         SystemInstructionPreset.instruction q
         = SystemInstructionPreset.instruction p →
         SystemInstructionPreset.name q = name) →
   Menu.syncSelectedPreset (MenuWiring.props s)
   = [Menu.setSelectedPresetName name]).
Proof.
  intros Hc Hid Hp calls s. subst calls s. unfold Menu.handlePresetChange.
  cbn [MenuWiring.props Menu.systemInstructionPresets]. rewrite Hp.
  set (text := SystemInstructionPreset.instruction p).
  assert (MenuWiring.after r newId
            [Menu.setSelectedPresetName name;
             Menu.onSystemInstructionChange text]
          = commit (handleSystemInstructionChange r text) r) as ->
    by (rewrite after_cons; cbn [MenuWiring.dispatch]; rewrite commit_nil;
        exact (after_single r newId (Menu.onSystemInstructionChange text))).
  unfold handleSystemInstructionChange.
  rewrite (currentConversation_Some_id _ _ Hc).
  apply truthy_spec in Hid as ->. rewrite commit_cons, commit_nil.
  destruct (systemInstruction_update r (Conversation.id c) text c Hc eq_refl)
    as [H1 H2].
  split_and!; [exact H1|exact H2|done|].
  intros Huniq. unfold Menu.syncSelectedPreset.
  cbn [MenuWiring.props Menu.systemInstruction Menu.systemInstructionPresets].
  rewrite H1.
  change (systemInstructionPresets (apply r _))
    with (systemInstructionPresets r).
  apply find_Some_elem in Hp as [Hin Hname].
  destruct (find_elem_is_Some
              (λ q, SystemInstructionPreset.instruction q = text)
              (systemInstructionPresets r) p Hin eq_refl) as [q Hq].
  rewrite Hq. simpl. apply find_Some_elem in Hq as [Hqin Hqtext].
  by rewrite (Huniq q Hqin Hqtext).
Qed.

Lemma elem_of_insert_inv {A} (l : list A) i x y :
  y ∈ <[i := x]> l → y = x ∨ y ∈ l.
Proof.
  intros (j & Hj)%list_elem_of_lookup_1.
  apply list_lookup_insert_Some in Hj as [(_ & -> & _)|[_ Hj]];
    [by left|right]. by eapply list_elem_of_lookup_2.
Qed.

(** X9: saving through the menu never stores a preset with an empty name or
    a blank instruction: every preset of the list afterwards was there
    before, or has the name typed in the prompt, not empty, and the
    instruction of the current conversation, not blank. *)
Theorem menu_save_preset_never_blank r newId promptResult q :
  let s :=
    MenuWiring.after r newId
      (Menu.handleSavePreset (MenuWiring.props r) promptResult) in
  q ∈ systemInstructionPresets s →
  q ∈ systemInstructionPresets r ∨
  (promptResult = Some (SystemInstructionPreset.name q) ∧
   SystemInstructionPreset.name q ≠ "" ∧
   SystemInstructionPreset.instruction q = systemInstruction r ∧
   ¬ JS.whiteSpaceOnly (SystemInstructionPreset.instruction q)).
Proof.
  intros s. subst s. unfold Menu.handleSavePreset.
  destruct promptResult as [name|]; [|by left].
  cbn [MenuWiring.props Menu.systemInstruction].
  destruct (JS.truthy name) eqn:Hname; [|by left].
  destruct (JS.truthy (JS.trim (systemInstruction r))) eqn:Htext; [|by left].
  cbn [andb].
  assert (MenuWiring.after r newId [Menu.onAddSystemInstructionPreset name]
          = commit (handleAddSystemInstructionPreset r name) r) as ->.
  { by rewrite after_single. }
  unfold handleAddSystemInstructionPreset.
  destruct (currentConversation r) as [c|] eqn:Hc; [|by left].
  rewrite commit_cons, commit_nil. simpl.
  apply truthy_spec in Hname. apply truthy_spec in Htext.
  assert (systemInstruction r = Conversation.systemInstruction c) as Hsys.
  { unfold systemInstruction. by rewrite Hc. }
  assert (∀ q',
            q' = {| SystemInstructionPreset.name := name;
                    SystemInstructionPreset.instruction :=
                      Conversation.systemInstruction c |} →
            Some name = Some (SystemInstructionPreset.name q') ∧
            SystemInstructionPreset.name q' ≠ "" ∧
            SystemInstructionPreset.instruction q' = systemInstruction r ∧
            ¬ JS.whiteSpaceOnly (SystemInstructionPreset.instruction q'))
    as Hnew.
  { intros q' ->. simpl. split_and!; [done|done|done|].
    rewrite <- Hsys. by rewrite <- trim_empty_iff. }
  unfold JS.findIndex.
  destruct (list_find _ (systemInstructionPresets r)) as [[i old]|]; simpl.
  - intros [->|Hin]%elem_of_insert_inv; [right; by apply Hnew|by left].
  - intros [Hin| ->%list_elem_of_singleton]%elem_of_app;
      [by left|right; by apply Hnew].
Qed.

(** ** Submitting text: new messages and edits *)

(** A send started from the chat input: [handleSend] followed by the
    reset of the edit cells. *)
Lemma send_then_reset_run env r c userText baseMessages :
  currentConversation r = Some c →
  Conversation.id c ≠ "" →
  let newMessages :=
    default (messages r) baseMessages ++ [userMessage userText] in
  let reply :=
    Gemini.sendToGeminiWithContext env newMessages (systemInstruction r)
      (selectedModel r) in
  let a := and_then (handleSend r userText baseMessages) reset_edit in
  messages (started a r) = newMessages ∧
  messages (completed env a r) = newMessages ++ [modelMessage reply] ∧
  editIndex (completed env a r) = None ∧
  editText (completed env a r) = "" ∧
  editRole (completed env a r) = None ∧
  isLoading (completed env a r) = false.
Proof.
  intros Hc Hid newMessages reply a. subst a reply newMessages.
  rewrite (handleSend_Await _ _ _ _ Hc Hid).
  set (newMessages := default (messages r) baseMessages ++ _).
  unfold and_then, completed, settled_after, started, reset_edit.
  cbn [app]. rewrite !commit_cons, !commit_nil.
  cbn [req_messages req_systemInstruction req_model].
  set (reply := Gemini.sendToGeminiWithContext env _ _ _).
  set (u1 := updateConversation (Conversation.id c)
               (Partial.of_messages newMessages)).
  set (u2 := updateConversation (Conversation.id c)
               (Partial.of_messages (newMessages ++ [modelMessage reply]))).
  assert (currentConversation (apply r u1)
          = Some (Partial.spread c (Partial.of_messages newMessages))) as H1
    by by apply currentConversation_update.
  assert (currentConversation (apply (apply r u1) u2)
          = Some (Partial.spread
                    (Partial.spread c (Partial.of_messages newMessages))
                    (Partial.of_messages
                       (newMessages ++ [modelMessage reply])))) as H2
    by by apply currentConversation_update.
  split_and!; [| |done..].
  - change (messages (apply r u1) = newMessages).
    unfold messages. by rewrite H1.
  - change (messages (apply (apply r u1) u2)
            = newMessages ++ [modelMessage reply]).
    unfold messages. by rewrite H2.
Qed.

(** X10: submitting an edit of a user message discards that message and all
    later ones, sends the new text after what is kept, and leaves edit
    mode.  The current id is assumed to be a non-empty string. *)
Theorem edit_user_message_truncates_and_resends env r c i newText :
  currentConversation r = Some c →
  Conversation.id c ≠ "" →
  editIndex r = Some i →
  editRole r = Some user →
  ∃ a, onSend r newText = Some a ∧
    let kept := take i (messages r) in
    let reply :=
      Gemini.sendToGeminiWithContext env (kept ++ [userMessage newText])
        (systemInstruction r) (selectedModel r) in
    messages (started a r) = kept ++ [userMessage newText] ∧
    messages (completed env a r)
    = kept ++ [userMessage newText; modelMessage reply] ∧
    editIndex (completed env a r) = None ∧
    editText (completed env a r) = "" ∧
    editRole (completed env a r) = None.
Proof.
  intros Hc Hid Hi Hrole. unfold onSend. rewrite Hi, Hrole.
  eexists. split; [done|].
  destruct (send_then_reset_run env r c newText
              (Some (take i (messages r))) Hc Hid)
    as (H1 & H2 & H3 & H4 & H5 & _).
  simpl in H1, H2. split_and!; [done| |done..].
  rewrite H2. by rewrite <- app_assoc.
Qed.

(** X11: outside edit mode, submitting text appends it to the whole history
    as a user message, and then the reply as a model message. *)
Theorem plain_submit_appends_exchange env r c userText :
  currentConversation r = Some c →
  Conversation.id c ≠ "" →
  editIndex r = None →
  ∃ a, onSend r userText = Some a ∧
    let reply :=
      Gemini.sendToGeminiWithContext env
        (messages r ++ [userMessage userText])
        (systemInstruction r) (selectedModel r) in
    messages (started a r) = messages r ++ [userMessage userText] ∧
    messages (completed env a r)
    = messages r ++ [userMessage userText; modelMessage reply] ∧
    isLoading (completed env a r) = false.
Proof.
  intros Hc Hid Hi. unfold onSend. rewrite Hi.
  eexists. split; [done|].
  destruct (send_then_reset_run env r c userText None Hc Hid)
    as (H1 & H2 & _ & _ & _ & H6).
  simpl in H1, H2. split_and!; [done| |done].
  rewrite H2. by rewrite <- app_assoc.
Qed.

(** X12: opening a model message for editing and submitting its text as it
    stands changes no message and leaves edit mode.  The text must not be
    blank, or the input would refuse to submit. *)
Theorem edit_model_message_unchanged_is_identity r c i m :
  currentConversation r = Some c →
  Conversation.id c ≠ "" →
  messages r !! i = Some m →
  role m = model →
  ¬ JS.whiteSpaceOnly (text m) →
  let r1 := run (λ r, MessageList.onClickEdit r i) r in
  ∃ us, Wiring.submit r1 = Some (Return us) ∧
    let s := commit us r1 in
    messages s = messages r ∧
    editIndex s = None ∧ editText s = "" ∧ editRole s = None.
Proof.
  intros Hc Hid Hm Hrole Hblank r1.
  assert (r1 = commit [setEditIndex (Some i); setEditText (text m);
                       setEditRole (Some model)] r) as Hr1.
  { subst r1. unfold run, MessageList.onClickEdit. by rewrite Hm, Hrole. }
  assert (messages r1 = messages r) as Hms by (by rewrite Hr1).
  assert (currentConversation r1 = Some c) as Hc1 by (by rewrite Hr1).
  assert (editText r1 = text m) as Htext by (by rewrite Hr1).
  assert (JS.truthy (JS.trim (text m)) = true) as Htrim.
  { apply truthy_spec. by rewrite trim_empty_iff. }
  unfold Wiring.submit, ChatInput.handleSubmit.
  change (ChatInput.input (Wiring.props r1) "") with (editText r1).
  rewrite Htext, Htrim. cbn [negb Wiring.dispatch_all Wiring.dispatch].
  unfold onSend.
  assert (editIndex r1 = Some i) as -> by (by rewrite Hr1).
  assert (editRole r1 = Some model) as -> by (by rewrite Hr1).
  rewrite (currentConversation_Some_id _ _ Hc1).
  apply truthy_spec in Hid as ->.
  unfold assign_text. rewrite Hms, Hm. simpl.
  eexists. split; [done|].
  rewrite commit_cons.
  assert (<[i := {| role := role m; text := text m |}]> (messages r)
          = messages r) as ->.
  { apply list_insert_id. rewrite Hm. by destruct m. }
  split_and!; [|done..].
  unfold reset_edit. rewrite !commit_cons, commit_nil.
  change (messages
            (apply r1 (updateConversation (Conversation.id c)
                         (Partial.of_messages (messages r))))
          = messages r).
  by erewrite messages_update.
Qed.

(** X14: without a usable current id [handleSend] does nothing at all.  With
    an id that no stored conversation has, it still raises the busy flag
    and calls the service with the text alone, but neither the message
    nor the reply is stored. *)
Theorem handleSend_without_conversation env r userText :
  (JS.truthy_opt (currentConversationId r) = false →
   handleSend r userText None = Return []) ∧
  (JS.truthy_opt (currentConversationId r) = true →
   currentConversation r = None →
   let a := handleSend r userText None in
   (∃ us k,
      a = Await us
            {| req_messages := [userMessage userText];
               req_systemInstruction := "";
               req_model := selectedModel r |} k) ∧
   isLoading (started a r) = true ∧
   conversations (started a r) = conversations r ∧
   conversations (completed env a r) = conversations r ∧
   isLoading (completed env a r) = false).
Proof.
  unfold handleSend. split.
  - destruct (currentConversationId r) as [cid|]; [|done]. simpl.
    by intros ->.
  - intros Ht Hnone.
    assert (messages r = []) as Hms by (unfold messages; by rewrite Hnone).
    assert (systemInstruction r = "") as Hsys
      by (unfold systemInstruction; by rewrite Hnone).
    unfold currentConversation in Hnone.
    destruct (currentConversationId r) as [cid|]; [|done]. simpl in Ht.
    rewrite Ht. simpl negb. cbv iota. rewrite Hms, Hsys. simpl default.
    apply find_None_iff in Hnone.
    assert (∀ s p, conversations s = conversations r →
              conversations (apply s (updateConversation cid p))
              = conversations r) as Hupd.
    { intros s p Hs. rewrite updateConversation_absent; [done|].
      by rewrite Hs. }
    split_and!; [by eexists _, _| | | |]; unfold started, completed,
      settled_after; rewrite ?commit_cons, ?commit_nil; try done.
    + by apply Hupd.
    + apply Hupd. by apply Hupd.
Qed.

(** ** The credential *)

Lemma sentinels_distinct :
  Gemini.empty_response ≠ Gemini.missing_key ∧
  Gemini.unknown_error ≠ Gemini.missing_key ∧
  ∀ message, Gemini.error_prefix +:+ message ≠ Gemini.missing_key.
Proof.
  split_and!; [done|done|]. intros message. vm_compute. discriminate.
Qed.

(** X15: after an empty key has been saved, every send answers with the
    missing-key message, whatever the service would say.  After a
    non-empty key has been saved, the service is asked with that key, and
    the missing-key message can only come out if the service itself
    replies with that very text. *)
Theorem saved_key_decides_the_call env key ms instruction modelName :
  let env' := ApiKeyInput.handleSave key env in
  let result :=
    Gemini.sendToGeminiWithContext env' ms instruction modelName in
  let contents :=
    (λ msg, {| Gemini.content_role := role msg;
               Gemini.parts := [text msg] |}) <$> ms in
  (key = "" → result = Gemini.missing_key) ∧
  (key ≠ "" → result = Gemini.missing_key →
   Gemini.generateContent env key modelName contents instruction
   = Gemini.resolves (Some Gemini.missing_key)).
Proof.
  intros env' result contents. subst env' result.
  unfold Gemini.sendToGeminiWithContext, ApiKeyInput.handleSave.
  cbn [Gemini.gemini_api_key Gemini.generateContent]. fold contents.
  destruct sentinels_distinct as (He & Hu & Hp). split.
  - by intros ->.
  - intros Hkey%truthy_spec. rewrite Hkey. simpl negb. cbv iota.
    destruct (Gemini.generateContent env key modelName contents instruction)
      as [[reply|]|message|]; intros Hres.
    + by rewrite Hres.
    + by apply He in Hres.
    + by apply Hp in Hres.
    + by apply Hu in Hres.
Qed.

(** ** Start-up *)

Lemma handleNewChat_on_first_render ls json newId :
  handleNewChat (Mount.initialState ls json) newId
  = [setConversations
       (λ prev, prev ++
          [{| Conversation.id := newId;
              Conversation.name := "Conversation 1";
              Conversation.messages := [];
              Conversation.systemInstruction := "" |}]);
     setCurrentConversationId newId].
Proof. reflexivity. Qed.

(** X16: when no conversations were saved, or what was saved is empty or does
    not parse, the application starts with exactly one conversation: it
    is named "Conversation 1", has no messages and no instruction, and is
    the current one. *)
Theorem mount_without_saved_conversations ls json newId :
  (Mount.gemini_conversations ls = None ∨
   Mount.gemini_conversations ls = Some "" ∨
   ∃ raw, Mount.gemini_conversations ls = Some raw ∧
          Mount.parse_conversations json raw = None) →
  let s := Mount.mounted ls json newId in
  let first :=
    {| Conversation.id := newId;
       Conversation.name := "Conversation 1";
       Conversation.messages := [];
       Conversation.systemInstruction := "" |} in
  conversations s = [first] ∧
  currentConversationId s = Some newId ∧
  currentConversation s = Some first ∧
  messages s = [] ∧
  isLoading s = false.
Proof.
  intros Hsaved s first.
  assert (s = commit (handleNewChat (Mount.initialState ls json) newId)
                     (Mount.initialState ls json)) as ->.
  { subst s. unfold Mount.mounted, run, Mount.loadEffect.
    destruct Hsaved as [->|[->|(raw & -> & Hraw)]]; [done|done|].
    rewrite Hraw. by destruct (negb (JS.truthy raw)). }
  rewrite (handleNewChat_on_first_render ls json newId).
  rewrite !commit_cons, commit_nil.
  split_and!; [done|done| | |done].
  - unfold currentConversation. simpl.
    rewrite find_cons. by rewrite decide_True.
  - unfold messages, currentConversation. simpl.
    rewrite find_cons. by rewrite decide_True.
Qed.

(** X17: when the saved conversations parse, they are restored as they are.
    With a saved id that parses, the pointer is that id, whether or not a
    restored conversation has it; with no saved id, the first restored
    conversation is the current one. *)
Theorem mount_restores_saved_conversations ls json newId raw l :
  Mount.gemini_conversations ls = Some raw →
  raw ≠ "" →
  Mount.parse_conversations json raw = Some l →
  let s := Mount.mounted ls json newId in
  (∀ rawId id,
     Mount.gemini_current_conversation_id ls = Some rawId →
     rawId ≠ "" →
     Mount.parse_id json rawId = Some id →
     conversations s = l ∧
     currentConversationId s = Some id ∧
     currentConversation s = JS.find (λ c, Conversation.id c = id) l) ∧
  (Mount.gemini_current_conversation_id ls = None ∨
   Mount.gemini_current_conversation_id ls = Some "" →
   conversations s = l ∧
   currentConversationId s = Conversation.id <$> head l ∧
   currentConversation s = head l).
Proof.
  intros Hraw Hne Hl s. subst s.
  unfold Mount.mounted, run, Mount.loadEffect. rewrite Hraw.
  apply truthy_spec in Hne as ->. cbn [negb]. rewrite Hl. split.
  - intros rawId id -> Hid%truthy_spec ->. rewrite Hid. cbn [negb].
    by rewrite !commit_cons, commit_nil.
  - assert (let s :=
              commit (setConversations (λ _, l) ::
                      match l with
                      | c :: _ => [setCurrentConversationId (Conversation.id c)]
                      | [] => []
                      end) (Mount.initialState ls json) in
            conversations s = l ∧
            currentConversationId s = Conversation.id <$> head l ∧
            currentConversation s = head l) as Hfirst.
    { destruct l as [|c l']; [done|].
      rewrite !commit_cons, commit_nil. split_and!; [done|done|].
      unfold currentConversation. simpl. rewrite find_cons.
      by rewrite decide_True. }
    by intros [->| ->].
Qed.

(** X18: when the saved conversations parse but the saved id does not, the
    restored conversations are kept and a new one is appended and made
    current; it is named "Conversation 1" however many were restored.
    [uuidv4()] is assumed to return an id that no restored conversation
    has. *)
Theorem mount_with_corrupt_saved_id ls json newId raw l rawId :
  Mount.gemini_conversations ls = Some raw →
  raw ≠ "" →
  Mount.parse_conversations json raw = Some l →
  Mount.gemini_current_conversation_id ls = Some rawId →
  rawId ≠ "" →
  Mount.parse_id json rawId = None →
  newId ∉ Store.ids l →
  let s := Mount.mounted ls json newId in
  let added :=
    {| Conversation.id := newId;
       Conversation.name := "Conversation 1";
       Conversation.messages := [];
       Conversation.systemInstruction := "" |} in
  conversations s = l ++ [added] ∧
  currentConversationId s = Some newId ∧
  currentConversation s = Some added.
Proof.
  intros Hraw Hne Hl HrawId Hid Hbad Hfresh s added. subst s.
  unfold Mount.mounted, run, Mount.loadEffect. rewrite Hraw.
  apply truthy_spec in Hne as ->. cbn [negb]. rewrite Hl, HrawId.
  apply truthy_spec in Hid as ->. cbn [negb]. rewrite Hbad.
  rewrite (handleNewChat_on_first_render ls json newId).
  rewrite !commit_cons, commit_nil. split_and!; [done|done|].
  unfold currentConversation. simpl. apply find_app_fresh; [|done].
  intros c' Hc' Heq. apply Hfresh. unfold Store.ids.
  apply list_elem_of_fmap. eauto.
Qed.

(** ** Exporting *)

Lemma sanitize_length s :
  Strings.String.length (Menu.sanitize s) = Strings.String.length s.
Proof. induction s as [|c s IH]; simpl; [done|by rewrite IH]. Qed.

Lemma sanitize_clean s ch :
  ch ∈ Menu.illegal →
  ch ∉ Strings.String.list_ascii_of_string (Menu.sanitize s).
Proof.
  intros Hill. induction s as [|c s IH]; simpl; [by intros ?%elem_of_nil|].
  apply not_elem_of_cons. split; [|done].
  case_bool_decide as Hc.
  - intros ->. revert Hill.
    by apply (bool_decide_eq_false_1 ("_"%char ∈ Menu.illegal)).
  - intros Heq. apply Hc. by rewrite <- Heq.
Qed.

Lemma sanitize_fixed s :
  (∀ ch, ch ∈ Menu.illegal → ch ∉ Strings.String.list_ascii_of_string s) →
  Menu.sanitize s = s.
Proof.
  induction s as [|c s IH]; simpl; [done|]. intros Hclean.
  rewrite bool_decide_eq_false_2.
  - rewrite IH; [done|]. intros ch Hch Hin. apply (Hclean ch Hch). by right.
  - intros Hc. apply (Hclean c Hc). by left.
Qed.

Lemma sanitize_bytes s :
  Strings.String.list_ascii_of_string (Menu.sanitize s)
  = (λ ch, if bool_decide (ch ∈ Menu.illegal) then "_"%char else ch)
      <$> Strings.String.list_ascii_of_string s.
Proof. induction s as [|c s IH]; simpl; [done|by rewrite IH]. Qed.

(** The class holds the characters with the codes of backslash, slash,
    colon, asterisk, question mark, double quote, less-than, greater-than
    and vertical bar, and no other. *)
Lemma illegal_codes ch :
  ch ∈ Menu.illegal ↔
  nat_of_ascii ch ∈ [92; 47; 58; 42; 63; 34; 60; 62; 124].
Proof.
  split.
  - unfold Menu.illegal. rewrite !elem_of_cons, elem_of_nil.
    intros H.
    repeat (destruct H as [->|H];
            [apply (bool_decide_unpack _); reflexivity|]).
    done.
  - intros H. rewrite <- (ascii_nat_embedding ch).
    rewrite !elem_of_cons, elem_of_nil in H.
    repeat (destruct H as [->|H];
            [apply (bool_decide_unpack _); reflexivity|]).
    done.
Qed.

(** The two headings of the export, as [capitalize] makes them. *)
Lemma capitalize_role_name r :
  Menu.capitalize (Menu.role_name r)
  = match r with user => "User" | model => "Model" end.
Proof. by destruct r. Qed.

(** X19: the export offers a file exactly when the current pointer
    resolves, and it is made from the first conversation with that id.
    The file name is that conversation's name followed by ".md", where,
    position by position, each character whose code is that of backslash,
    slash, colon, asterisk, question mark, double quote, less-than,
    greater-than or vertical bar has become an underscore and every other
    character is kept: so the length is the same, none of the nine is
    left, and a name without them is used as it is.  The content is the
    heading with the unsanitized name, then one block per message in
    order, headed "User" or "Model" and separated by rules. *)
Theorem export_file_name_is_sanitized (p : Menu.Props) :
  match Menu.handleExport p with
  | Some (file, content) =>
    ∃ c base,
      Menu.currentConversationId p = Some (Conversation.id c) ∧
      JS.find (λ c', Conversation.id c' = Conversation.id c)
              (Menu.conversations p) = Some c ∧
      c ∈ Menu.conversations p ∧
      file = base +:+ ".md" ∧
      Strings.String.length base
      = Strings.String.length (Conversation.name c) ∧
      (∀ i ch,
         Strings.String.list_ascii_of_string (Conversation.name c) !! i
         = Some ch →
         Strings.String.list_ascii_of_string base !! i
         = Some (if bool_decide
                      (nat_of_ascii ch
                       ∈ [92; 47; 58; 42; 63; 34; 60; 62; 124])
                 then "_"%char else ch)) ∧
      (∀ ch, nat_of_ascii ch ∈ [92; 47; 58; 42; 63; 34; 60; 62; 124] →
             ch ∉ Strings.String.list_ascii_of_string base) ∧
      ((∀ ch, nat_of_ascii ch ∈ [92; 47; 58; 42; 63; 34; 60; 62; 124] →
              ch ∉ Strings.String.list_ascii_of_string
                     (Conversation.name c)) →
       base = Conversation.name c) ∧
      content
      = "# Conversation: " +:+ Conversation.name c +:+ Menu.LF +:+ Menu.LF
        +:+ Strings.String.concat
              (Menu.LF +:+ Menu.LF +:+ "---" +:+ Menu.LF +:+ Menu.LF)
              ((λ msg,
                  "**" +:+
                  match role msg with user => "User" | model => "Model" end
                  +:+ ":**" +:+ Menu.LF +:+ Menu.LF +:+ text msg)
                 <$> Conversation.messages c)
  | None =>
    ∀ cid, Menu.currentConversationId p = Some cid →
           cid ∉ Store.ids (Menu.conversations p)
  end.
Proof.
  unfold Menu.handleExport.
  destruct (Menu.currentConversationId p) as [cid|]; [|done].
  destruct (JS.find _ (Menu.conversations p)) as [c|] eqn:Hc; simpl.
  - pose proof Hc as Hfind. apply find_Some_id in Hc as [<- Hin].
    exists c, (Menu.sanitize (Conversation.name c)).
    split_and!; [done|exact Hfind|done|done|apply sanitize_length| | | |].
    + intros i ch Hi. rewrite sanitize_bytes, list_lookup_fmap, Hi. simpl.
      by rewrite (bool_decide_ext _ _ (illegal_codes ch)).
    + intros ch Hch%illegal_codes. by apply sanitize_clean.
    + intros Hclean. apply sanitize_fixed.
      intros ch Hch%illegal_codes. by apply Hclean.
    + unfold Menu.markdownContent. do 5 f_equal.
      apply list_fmap_ext. intros i msg _.
      by rewrite capitalize_role_name.
  - intros ? [= <-]. by apply find_None_iff.
Qed.

(** ** Resending by editing *)

Lemma messages_ext s s' :
  conversations s = conversations s' →
  currentConversationId s = currentConversationId s' →
  messages s = messages s'.
Proof.
  intros Hc Hi. unfold messages, currentConversation. by rewrite Hc, Hi.
Qed.

(** Updates that touch neither the conversations nor the pointer, made
    between the start of a send and its completion, do not change the
    messages it ends with. *)
Lemma send_and_more_run env r c userText baseMessages more :
  currentConversation r = Some c →
  Conversation.id c ≠ "" →
  (∀ s, conversations (commit more s) = conversations s ∧
        currentConversationId (commit more s) = currentConversationId s) →
  messages
    (completed env (and_then (handleSend r userText baseMessages) more) r)
  = messages (completed env (handleSend r userText baseMessages) r).
Proof.
  intros Hc Hid Hmore. rewrite (handleSend_Await _ _ _ _ Hc Hid).
  unfold and_then, completed, settled_after. rewrite commit_app.
  set (s0 := commit [_; _] r).
  destruct (Hmore s0) as [H1 H2].
  rewrite !commit_cons, !commit_nil.
  apply messages_ext; simpl; [by rewrite H1|exact H2].
Qed.

(** X13: opening a user message for editing and submitting its text as it
    stands ends with the same messages as the resend button of that
    message.  The text must not be blank, or the input would refuse to
    submit; the current id is assumed to be a non-empty string. *)
Theorem edit_user_message_unchanged_is_resend env r c i m :
  currentConversation r = Some c →
  Conversation.id c ≠ "" →
  messages r !! i = Some m →
  role m = user →
  ¬ JS.whiteSpaceOnly (text m) →
  let r1 := run (λ r, MessageList.onClickEdit r i) r in
  ∃ a, Wiring.submit r1 = Some a ∧
    messages (completed env a r1)
    = messages (completed env (handleResend r i) r) ∧
    editIndex (completed env a r1) = None ∧
    editText (completed env a r1) = "" ∧
    editRole (completed env a r1) = None.
Proof.
  intros Hc Hid Hm Hrole Hblank r1.
  assert (r1 = commit [setEditIndex (Some i); setEditText (text m);
                       setEditRole (Some user)] r) as Hr1.
  { subst r1. unfold run, MessageList.onClickEdit. by rewrite Hm, Hrole. }
  assert (messages r1 = messages r) as Hms by (by rewrite Hr1).
  assert (currentConversation r1 = Some c) as Hc1 by (by rewrite Hr1).
  assert (editText r1 = text m) as Htext by (by rewrite Hr1).
  assert (JS.truthy (JS.trim (text m)) = true) as Htrim.
  { apply truthy_spec. by rewrite trim_empty_iff. }
  unfold Wiring.submit, ChatInput.handleSubmit.
  change (ChatInput.input (Wiring.props r1) "") with (editText r1).
  rewrite Htext, Htrim. cbn [negb Wiring.dispatch_all Wiring.dispatch].
  unfold onSend.
  assert (editIndex r1 = Some i) as -> by (by rewrite Hr1).
  assert (editRole r1 = Some user) as -> by (by rewrite Hr1).
  set (a0 := handleSend r1 (text m) (Some (take i (messages r1)))).
  change (ChatInput.updateInput (Wiring.props r1) "")
    with (ChatInput.setInputText "").
  cbn [Wiring.dispatch mbind option_bind].
  change (and_then (Return [setEditText ""]) [])
    with (Return [setEditText ""]). cbv iota beta.
  assert (and_then (and_then a0 reset_edit) [setEditText ""]
          = and_then a0 (reset_edit ++ [setEditText ""])) as ->.
  { subst a0. by rewrite (handleSend_Await _ _ _ _ Hc1 Hid). }
  eexists. split; [done|]. subst a0.
  split_and!.
  - rewrite (send_and_more_run env r1 c) by done.
    unfold handleResend. rewrite Hm, Hrole. rewrite decide_False by auto.
    destruct (handleSend_run env r1 c (text m)
                (Some (take i (messages r1))) Hc1 Hid) as (_ & _ & -> & _).
    destruct (handleSend_run env r c (text m)
                (Some (take i (messages r))) Hc Hid) as (_ & _ & -> & _).
    by rewrite Hr1.
  - by rewrite (handleSend_Await _ _ _ _ Hc1 Hid).
  - by rewrite (handleSend_Await _ _ _ _ Hc1 Hid).
  - by rewrite (handleSend_Await _ _ _ _ Hc1 Hid).
Qed.

(** * The further properties at the sample data *)

Lemma handleDeleteConversation_other_keeps_current_witness :
  currentConversationId Sample.state ≠ Some "b" ∧
  conversations (run (λ r, handleDeleteConversation r "u" "b") Sample.state)
  = [Sample.greeting] ∧
  currentConversation
    (run (λ r, handleDeleteConversation r "u" "b") Sample.state)
  = Some Sample.greeting.
Proof.
  assert (currentConversationId Sample.state ≠ Some "b") as Hne
    by discriminate.
  destruct (handleDeleteConversation_other_keeps_current
              Sample.state "u" "b" Hne) as (H1 & _ & _ & H4 & _).
  split_and!; [exact Hne|exact H1|exact H4].
Defined.

Lemma menu_calls_keep_ids_distinct_witness :
  Store.unique_ids Sample.state ∧
  ("u" ∉ Store.ids (conversations Sample.state)) ∧
  Store.unique_ids
    (commit (MenuWiring.dispatch Sample.state "u" Menu.onNewChat)
       Sample.state).
Proof.
  assert (Store.unique_ids Sample.state) as Hnd.
  { apply (bool_decide_unpack _). reflexivity. }
  assert ("u" ∉ Store.ids (conversations Sample.state)) as Hfresh.
  { apply (bool_decide_unpack _). reflexivity. }
  split_and!; [exact Hnd|exact Hfresh|].
  exact (menu_calls_keep_ids_distinct Sample.state "u" Menu.onNewChat
           Hnd Hfresh).
Defined.

Lemma menu_calls_keep_current_resolving_witness :
  Store.current_resolves Sample.state ∧
  Store.current_resolves
    (commit (MenuWiring.dispatch Sample.state "u"
               (Menu.onDeleteConversation "a")) Sample.state).
Proof.
  assert (Store.current_resolves Sample.state) as Hres by (by eexists).
  split; [exact Hres|].
  apply (menu_calls_keep_current_resolving Sample.state "u"
           (Menu.onDeleteConversation "a") Hres).
  intros id Hid. discriminate Hid.
Defined.

Lemma handleClearChat_empties_current_only_witness :
  currentConversation Sample.state = Some Sample.greeting ∧
  Conversation.id Sample.greeting ≠ "" ∧
  messages (run handleClearChat Sample.state) = [] ∧
  systemInstruction (run handleClearChat Sample.state) = "Be brief.".
Proof.
  assert (Conversation.id Sample.greeting ≠ "") as Hid by discriminate.
  destruct (handleClearChat_empties_current_only Sample.state
              Sample.greeting eq_refl Hid) as (_ & H2 & H3 & _).
  split_and!; [reflexivity|exact Hid|exact H2|exact H3].
Defined.

Lemma menu_rename_stores_trimmed_name_witness :
  Menu.editingId Fixtures.renaming = Some "a" ∧
  JS.find (λ c, Conversation.id c = "a") (conversations Sample.state)
  = Some Sample.greeting ∧
  ¬ JS.whiteSpaceOnly (Menu.editingName Fixtures.renaming) ∧
  JS.find (λ c, Conversation.id c = "a")
    (conversations
       (MenuWiring.after Sample.state "u"
          (Menu.handleRename Fixtures.renaming)))
  = Some (Store.with_name Sample.greeting "Trip notes").
Proof.
  assert ("a" ≠ "") as Hid by discriminate.
  assert (¬ JS.whiteSpaceOnly (Menu.editingName Fixtures.renaming))
    as Hname.
  { rewrite <- trim_empty_iff. vm_compute. discriminate. }
  destruct (menu_rename_stores_trimmed_name Sample.state "u"
              Fixtures.renaming "a" Sample.greeting eq_refl Hid eq_refl)
    as (_ & _ & _ & Hrename).
  destruct (Hrename Hname) as (_ & _ & Hfound & _).
  split_and!; [reflexivity|reflexivity|exact Hname|exact Hfound].
Defined.

Lemma saved_preset_is_found_witness :
  currentConversation Sample.state = Some Sample.greeting ∧
  JS.find (λ p, SystemInstructionPreset.name p = "terse")
    (systemInstructionPresets
       (run (λ r, handleAddSystemInstructionPreset r "terse") Sample.state))
  = Some {| SystemInstructionPreset.name := "terse";
            SystemInstructionPreset.instruction := "Be brief." |}.
Proof.
  split; [reflexivity|].
  exact (saved_preset_is_found Sample.state Sample.greeting "terse" eq_refl).
Defined.

Lemma save_then_delete_preset_clears_instruction_witness :
  currentConversation Sample.state = Some Sample.greeting ∧
  Conversation.id Sample.greeting ≠ "" ∧
  systemInstruction
    (run (λ r, handleDeleteSystemInstructionPreset r "terse")
       (run (λ r, handleAddSystemInstructionPreset r "terse") Sample.state))
  = "".
Proof.
  assert (Conversation.id Sample.greeting ≠ "") as Hid by discriminate.
  destruct (save_then_delete_preset_clears_instruction Sample.state
              Sample.greeting "terse" eq_refl Hid) as (H1 & _).
  split_and!; [reflexivity|exact Hid|exact H1].
Defined.

Lemma preset_selection_round_trip_witness :
  currentConversation Fixtures.plain = Some Sample.greeting ∧
  Conversation.id Sample.greeting ≠ "" ∧
  JS.find (λ q, SystemInstructionPreset.name q = "short")
          (systemInstructionPresets Fixtures.plain) = Some Sample.brief ∧
  systemInstruction
    (MenuWiring.after Fixtures.plain "u"
       (Menu.handlePresetChange (MenuWiring.props Fixtures.plain) "short"))
  = "Be brief.".
Proof.
  assert (Conversation.id Sample.greeting ≠ "") as Hid by discriminate.
  destruct (preset_selection_round_trip Fixtures.plain "u" Sample.greeting
              "short" Sample.brief eq_refl Hid eq_refl) as (H1 & _).
  split_and!; [reflexivity|exact Hid|reflexivity|exact H1].
Defined.

Lemma menu_save_preset_never_blank_witness :
  let q :=
    {| SystemInstructionPreset.name := "terse";
       SystemInstructionPreset.instruction := "Be brief." |} in
  q ∈ systemInstructionPresets
        (MenuWiring.after Fixtures.plain "u"
           (Menu.handleSavePreset (MenuWiring.props Fixtures.plain)
              (Some "terse"))) ∧
  (q ∈ systemInstructionPresets Fixtures.plain ∨
   (Some "terse" = Some (SystemInstructionPreset.name q) ∧
    SystemInstructionPreset.name q ≠ "" ∧
    SystemInstructionPreset.instruction q = systemInstruction Fixtures.plain ∧
    ¬ JS.whiteSpaceOnly (SystemInstructionPreset.instruction q))).
Proof.
  intros q.
  assert (q ∈ systemInstructionPresets
                (MenuWiring.after Fixtures.plain "u"
                   (Menu.handleSavePreset (MenuWiring.props Fixtures.plain)
                      (Some "terse")))) as Hin.
  { assert (systemInstructionPresets
              (MenuWiring.after Fixtures.plain "u"
                 (Menu.handleSavePreset (MenuWiring.props Fixtures.plain)
                    (Some "terse"))) = [Sample.brief; q]) as ->
      by (vm_compute; reflexivity).
    right. left. }
  split; [exact Hin|].
  exact (menu_save_preset_never_blank Fixtures.plain "u" (Some "terse") q
           Hin).
Defined.

Lemma edit_user_message_truncates_and_resends_witness :
  currentConversation Fixtures.editing_user = Some Sample.greeting ∧
  Conversation.id Sample.greeting ≠ "" ∧
  editIndex Fixtures.editing_user = Some 2 ∧
  editRole Fixtures.editing_user = Some user ∧
  ∃ a, onSend Fixtures.editing_user "q2, again" = Some a ∧
       messages (completed Sample.env a Fixtures.editing_user)
       = [userMessage "hi"; modelMessage "yo"; userMessage "q2, again";
          modelMessage "pong"].
Proof.
  assert (Conversation.id Sample.greeting ≠ "") as Hid by discriminate.
  destruct (edit_user_message_truncates_and_resends Sample.env
              Fixtures.editing_user Sample.greeting 2 "q2, again"
              eq_refl Hid eq_refl eq_refl) as (a & Ha & _ & H2 & _).
  split_and!; [reflexivity|exact Hid|reflexivity|reflexivity|].
  exists a. split; [exact Ha|exact H2].
Defined.

Lemma plain_submit_appends_exchange_witness :
  currentConversation Fixtures.plain = Some Sample.greeting ∧
  Conversation.id Sample.greeting ≠ "" ∧
  editIndex Fixtures.plain = None ∧
  ∃ a, onSend Fixtures.plain "more" = Some a ∧
       messages (completed Sample.env a Fixtures.plain)
       = [userMessage "hi"; modelMessage "yo"; userMessage "q2";
          userMessage "more"; modelMessage "pong"].
Proof.
  assert (Conversation.id Sample.greeting ≠ "") as Hid by discriminate.
  destruct (plain_submit_appends_exchange Sample.env Fixtures.plain
              Sample.greeting "more" eq_refl Hid eq_refl)
    as (a & Ha & _ & H2 & _).
  split_and!; [reflexivity|exact Hid|reflexivity|].
  exists a. split; [exact Ha|exact H2].
Defined.

Lemma edit_model_message_unchanged_is_identity_witness :
  currentConversation Fixtures.plain = Some Sample.greeting ∧
  Conversation.id Sample.greeting ≠ "" ∧
  messages Fixtures.plain !! 1 = Some (modelMessage "yo") ∧
  ¬ JS.whiteSpaceOnly "yo" ∧
  ∃ us,
    Wiring.submit (run (λ r, MessageList.onClickEdit r 1) Fixtures.plain)
    = Some (Return us) ∧
    messages
      (commit us (run (λ r, MessageList.onClickEdit r 1) Fixtures.plain))
    = messages Fixtures.plain.
Proof.
  assert (Conversation.id Sample.greeting ≠ "") as Hid by discriminate.
  assert (¬ JS.whiteSpaceOnly "yo") as Htext.
  { rewrite <- trim_empty_iff. vm_compute. discriminate. }
  destruct (edit_model_message_unchanged_is_identity Fixtures.plain
              Sample.greeting 1 (modelMessage "yo")
              eq_refl Hid eq_refl eq_refl Htext) as (us & Hus & Hms & _).
  split_and!; [reflexivity|exact Hid|reflexivity|exact Htext|].
  exists us. split; [exact Hus|exact Hms].
Defined.

Lemma handleSend_without_conversation_witness :
  JS.truthy_opt (currentConversationId Fixtures.dangling) = true ∧
  currentConversation Fixtures.dangling = None ∧
  conversations
    (completed Sample.env (handleSend Fixtures.dangling "hi" None)
       Fixtures.dangling)
  = conversations Fixtures.dangling.
Proof.
  destruct (handleSend_without_conversation Sample.env Fixtures.dangling
              "hi") as [_ H].
  destruct (H eq_refl eq_refl) as (_ & _ & _ & H4 & _).
  split_and!; [reflexivity|reflexivity|exact H4].
Defined.

Lemma saved_key_decides_the_call_witness :
  Gemini.sendToGeminiWithContext (ApiKeyInput.handleSave "" Sample.env)
    [userMessage "hi"] "" "gemini-2.5-flash"
  = Gemini.missing_key.
Proof.
  destruct (saved_key_decides_the_call Sample.env "" [userMessage "hi"] ""
              "gemini-2.5-flash") as [H _].
  exact (H eq_refl).
Defined.

Lemma mount_without_saved_conversations_witness :
  Mount.gemini_conversations Fixtures.nothing_saved = None ∧
  Conversation.name <$>
    conversations (Mount.mounted Fixtures.nothing_saved Fixtures.json "u")
  = ["Conversation 1"] ∧
  currentConversationId
    (Mount.mounted Fixtures.nothing_saved Fixtures.json "u") = Some "u".
Proof.
  destruct (mount_without_saved_conversations Fixtures.nothing_saved
              Fixtures.json "u" (or_introl eq_refl)) as (H1 & H2 & _).
  split_and!; [reflexivity| |exact H2]. by rewrite H1.
Defined.

Lemma mount_restores_saved_conversations_witness :
  Mount.gemini_conversations Fixtures.saved_with_id
  = Some "saved conversations" ∧
  Mount.parse_conversations Fixtures.json "saved conversations"
  = Some [Sample.greeting; Sample.other] ∧
  Mount.gemini_current_conversation_id Fixtures.saved_with_id
  = Some "saved id" ∧
  Mount.parse_id Fixtures.json "saved id" = Some "b" ∧
  currentConversation
    (Mount.mounted Fixtures.saved_with_id Fixtures.json "u")
  = Some Sample.other.
Proof.
  assert ("saved conversations" ≠ "") as Hraw by discriminate.
  assert ("saved id" ≠ "") as HrawId by discriminate.
  destruct (mount_restores_saved_conversations Fixtures.saved_with_id
              Fixtures.json "u" "saved conversations"
              [Sample.greeting; Sample.other] eq_refl Hraw eq_refl)
    as [Hid _].
  destruct (Hid "saved id" "b" eq_refl HrawId eq_refl) as (_ & _ & H3).
  split_and!; [reflexivity..|]. rewrite H3. reflexivity.
Defined.

Lemma mount_with_corrupt_saved_id_witness :
  Mount.parse_id Fixtures.json "garbage" = None ∧
  ("u" ∉ Store.ids [Sample.greeting; Sample.other]) ∧
  Conversation.name <$>
    conversations
      (Mount.mounted Fixtures.saved_with_bad_id Fixtures.json "u")
  = ["Conversation 1"; "Conversation 2"; "Conversation 1"].
Proof.
  assert ("saved conversations" ≠ "") as Hraw by discriminate.
  assert ("garbage" ≠ "") as HrawId by discriminate.
  assert ("u" ∉ Store.ids [Sample.greeting; Sample.other]) as Hfresh.
  { apply (bool_decide_unpack _). reflexivity. }
  destruct (mount_with_corrupt_saved_id Fixtures.saved_with_bad_id
              Fixtures.json "u" "saved conversations"
              [Sample.greeting; Sample.other] "garbage"
              eq_refl Hraw eq_refl eq_refl HrawId eq_refl Hfresh)
    as (H1 & _).
  split_and!; [reflexivity|exact Hfresh|]. by rewrite H1.
Defined.

Lemma export_file_name_is_sanitized_witness :
  ∃ base content,
    Menu.handleExport ExportSample.props = Some (base +:+ ".md", content) ∧
    Strings.String.length base = 11 ∧
    Strings.String.list_ascii_of_string base !! 4 = Some "_"%char ∧
    Strings.String.list_ascii_of_string base !! 5 = Some " "%char.
Proof.
  pose proof (export_file_name_is_sanitized ExportSample.props) as H.
  destruct (Menu.handleExport ExportSample.props)
    as [[file content]|] eqn:E; [|discriminate E].
  destruct H as (c & base & Hcur & Hfind & _ & -> & Hlen & Hpt & _).
  assert (c = ExportSample.trip) as ->.
  { injection Hcur as Hid. rewrite <- Hid in Hfind.
    vm_compute in Hfind. by injection Hfind. }
  exists base, content. split_and!; [reflexivity|exact Hlen| |].
  - exact (Hpt 4 ":"%char eq_refl).
  - exact (Hpt 5 " "%char eq_refl).
Defined.

Lemma edit_user_message_unchanged_is_resend_witness :
  currentConversation Fixtures.plain = Some Sample.greeting ∧
  Conversation.id Sample.greeting ≠ "" ∧
  messages Fixtures.plain !! 2 = Some (userMessage "q2") ∧
  ¬ JS.whiteSpaceOnly "q2" ∧
  ∃ a,
    Wiring.submit (run (λ r, MessageList.onClickEdit r 2) Fixtures.plain)
    = Some a ∧
    messages
      (completed Sample.env a
         (run (λ r, MessageList.onClickEdit r 2) Fixtures.plain))
    = messages
        (completed Sample.env (handleResend Fixtures.plain 2)
           Fixtures.plain).
Proof.
  assert (Conversation.id Sample.greeting ≠ "") as Hid by discriminate.
  assert (¬ JS.whiteSpaceOnly "q2") as Htext.
  { rewrite <- trim_empty_iff. vm_compute. discriminate. }
  destruct (edit_user_message_unchanged_is_resend Sample.env Fixtures.plain
              Sample.greeting 2 (userMessage "q2")
              eq_refl Hid eq_refl eq_refl Htext) as (a & Ha & Hms & _).
  split_and!; [reflexivity|exact Hid|reflexivity|exact Htext|].
  exists a. split; [exact Ha|exact Hms].
Defined.

Lemma sendToGeminiWithContext_never_raises_after_read_witness :
  GeminiCall.getItem GeminiCall.answering = GeminiCall.returns (Some "key") ∧
  GeminiCall.sendToGeminiWithContext GeminiCall.answering
    [userMessage "hi"] "" "gemini-2.5-flash" ≠ GeminiCall.rejected ∧
  GeminiCall.getItem GeminiCall.hanging = GeminiCall.returns (Some "key") ∧
  GeminiCall.sendToGeminiWithContext GeminiCall.hanging
    [userMessage "hi"] "" "gemini-2.5-flash" = GeminiCall.pending.
Proof.
  destruct (sendToGeminiWithContext_never_raises_after_read
              GeminiCall.answering (Some "key") [userMessage "hi"] ""
              "gemini-2.5-flash" eq_refl) as (Hnot & _).
  destruct (sendToGeminiWithContext_never_raises_after_read
              GeminiCall.hanging (Some "key") [userMessage "hi"] ""
              "gemini-2.5-flash" eq_refl) as (_ & Hpending & _).
  split_and!; [reflexivity|exact Hnot|reflexivity|].
  apply Hpending. exists "key". split_and!; [reflexivity|discriminate|].
  reflexivity.
Defined.
